(** * ola-recorder: the show verifier and the command-line dispatch

    A shallow embedding of [examples/ola-recorder.cpp]: the dry-run
    verifier [VerifyShow] with its helper [ClampVerifyFrameCount], and the
    flag validation and dispatch of [main].  Unsigned machine integers are
    modelled as [N] with the wrap-around written out; the
    [map<unsigned int, unsigned int>] of per-universe frame counts is a
    [gmap N N]. *)

From stdpp Require Import base numbers list strings gmap sorting.

Local Open Scope N_scope.

(** ** Machine integers *)

(** [unsigned int] arithmetic: results are reduced modulo 2^32. *)
Definition wrap32 (n : N) : N := n mod 2 ^ 32.

(** [uint64_t] arithmetic: results are reduced modulo 2^64. *)
Definition wrap64 (n : N) : N := n mod 2 ^ 64.

(** ** Exit codes *)

(** Modelled from the spec: the header [ola/base/SysExits.h] is not among the
    sources; the four exit codes the program uses are given the values of
    the BSD [sysexits.h] convention that the header follows. *)
Definition EXIT_OK : Z := 0%Z.
Definition EXIT_USAGE : Z := 64%Z.
Definition EXIT_DATAERR : Z := 65%Z.
Definition EXIT_NOINPUT : Z := 66%Z.

(** ** Show entries *)

(** Modelled from the spec: [examples/ShowLoader.h] is not among the sources.
    A show entry carries the universe it is addressed to, the number of
    milliseconds to wait after it, and the frame payload; the verifier
    reads [universe] and [next_wait] only. *)
Record ShowEntry := mkShowEntry {
  universe : N;
  next_wait : N;
  buffer : list N
}.

(** The default-constructed [ShowEntry entry;] local of [VerifyShow]. *)
Definition empty_entry : ShowEntry :=
  {| universe := 0; next_wait := 0; buffer := [] |}.

(** One record of a persisted show: a well-formed entry, or a record the
    loader cannot decode. *)
Inductive ShowRecord :=
| Frame (e : ShowEntry)
| Garbage.

(** ** The show loader *)

Module ShowLoader.

(** The states [NextEntry] reports.  The program names [OK] and
    [END_OF_FILE]; every other state is a decoding failure. *)
Inductive State := OK | INVALID_LINE | END_OF_FILE.

Definition State_eqb (a b : State) : bool :=
  match a, b with
  | OK, OK | INVALID_LINE, INVALID_LINE | END_OF_FILE, END_OF_FILE => true
  | _, _ => false
  end.

(** Modelled from the spec: [examples/ShowLoader.cpp] is not among the
    sources.  A loader owns one forward-only cursor over the records of a
    persisted show. *)
Record t := mk {
  records : list ShowRecord;
  pos : nat
}.

(** Modelled from the spec: [Load] opens a forward cursor at the start of
    the show and fails when the source cannot be opened or read at all.
    The readable shows are the keys of [store]. *)
Definition Load (store : gmap string (list ShowRecord)) (filename : string)
  : option t :=
  match store !! filename with
  | Some rs => Some {| records := rs; pos := 0 |}
  | None => None
  end.

(** Modelled from the spec: [NextEntry] advances the cursor by exactly one
    record and stores it in the caller's [entry] when a well-formed record
    is available; at the end of the show it reports [END_OF_FILE], at a
    malformed record it reports the failure, and in both cases neither the
    cursor nor [entry] changes. *)
Definition NextEntry (l : t) (entry : ShowEntry) : t * ShowEntry * State :=
  match records l !! pos l with
  | Some (Frame e) => ({| records := records l; pos := S (pos l) |}, e, OK)
  | Some Garbage => (l, entry, INVALID_LINE)
  | None => (l, entry, END_OF_FILE)
  end.

End ShowLoader.

(** ** Command-line flags *)

(** The [DEFINE_*] flags of the program, after [AppInit] has parsed the
    command line.  The numeric flags are [uint32]. *)
Record Flags := mkFlags {
  FLAGS_playback : string;
  FLAGS_record : string;
  FLAGS_verify : string;
  FLAGS_universes : string;
  FLAGS_delay : N;
  FLAGS_duration : N;
  FLAGS_iterations : N;
  FLAGS_start : N;
  FLAGS_stop : N
}.

(** ** What the program does to the outside world *)

Inductive Warning :=
| EndsBeforeStart (actual_length : N)
| EndsBeforeStop (actual_length : N).

Inductive Fatal :=
| StopBeforeStart
| NoUniverses
| NoModeGiven
| LoadError (state : ShowLoader.State).

(** The summary [VerifyShow] prints.  Times are kept in milliseconds; the
    program prints them divided by [1000.0]. *)
Record Summary := mkSummary {
  starting_at : option N;
  stopping_at : option N;
  universe_lines : list (N * N);
  total_frames : N;
  total_time : N
}.

Inductive CoreOp := OpPlayback | OpRecord | OpVerify.

Inductive Event :=
| EvCall (op : CoreOp)
| EvLoad (filename : string)
| EvWarn (w : Warning)
| EvFatal (f : Fatal)
| EvSummary (s : Summary)
| EvDisplayUsage.

(** ** The verifier *)

(** [frames_by_universe[u]++]: [operator[]] inserts a zero counter for a
    universe not seen before, and the increment is an [unsigned int] one. *)
Definition frames_incr (u : N) (frames : gmap N N) : gmap N N :=
  <[u := wrap32 (default 0 (frames !! u) + 1)]> frames.

(** The counter of a universe as the summary understands it: a universe
    without a map entry has no line, that is, no frames. *)
Definition frame_count (frames : gmap N N) (u : N) : N :=
  default 0 (frames !! u).

Definition clamp_count (c : N) : N := if 1 <? c then 1 else c.

Definition ClampVerifyFrameCount (frames : gmap N N) : gmap N N :=
  clamp_count <$> frames.

(** The local variables of [VerifyShow] that the scan loop updates.
    [clamp_calls] is a ghost variable: the cursor positions of the entries
    at which the loop called [ClampVerifyFrameCount]. *)
Record VerifyVars := mkVars {
  loader : ShowLoader.t;
  entry : ShowEntry;
  state : ShowLoader.State;
  playback_pos : N;
  playing : bool;
  frames_by_universe : gmap N N;
  clamp_calls : list nat
}.

Definition verify_init (l : ShowLoader.t) : VerifyVars :=
  {| loader := l; entry := empty_entry; state := ShowLoader.OK;
     playback_pos := 0; playing := false; frames_by_universe := ∅;
     clamp_calls := [] |}.

(** The [while (true)] loop of [VerifyShow].  [fuel] bounds the number of
    iterations; [None] means the bound was hit before the loop left. *)
Fixpoint verify_loop (start stop : N) (fuel : nat) (v : VerifyVars)
  : option VerifyVars :=
  match fuel with
  | O => None
  | S fuel' =>
    let '(l', entry', state') := ShowLoader.NextEntry (loader v) (entry v) in
    if negb (ShowLoader.State_eqb state' ShowLoader.OK) then
      Some {| loader := l'; entry := entry'; state := state';
              playback_pos := playback_pos v; playing := playing v;
              frames_by_universe := frames_by_universe v;
              clamp_calls := clamp_calls v |}
    else
      let pos' := wrap64 (playback_pos v + next_wait entry') in
      let frames' := frames_incr (universe entry') (frames_by_universe v) in
      if (0 <? stop) && (stop <=? pos') then
        Some {| loader := l'; entry := entry'; state := state';
                playback_pos := stop; playing := playing v;
                frames_by_universe := frames';
                clamp_calls := clamp_calls v |}
      else if negb (playing v) && (start <? pos') then
        verify_loop start stop fuel'
          {| loader := l'; entry := entry'; state := state';
             playback_pos := pos'; playing := true;
             frames_by_universe := ClampVerifyFrameCount frames';
             clamp_calls := clamp_calls v ++ [ShowLoader.pos (loader v)] |}
      else
        verify_loop start stop fuel'
          {| loader := l'; entry := entry'; state := state';
             playback_pos := pos'; playing := playing v;
             frames_by_universe := frames';
             clamp_calls := clamp_calls v |}
  end.

(** The loop leaves after at most one iteration per record left under the
    cursor, plus the one that sees the end. *)
Definition scan_fuel (l : ShowLoader.t) : nat :=
  S (length (ShowLoader.records l) - ShowLoader.pos l)%nat.

Definition verify_scan (start stop : N) (l : ShowLoader.t)
  : option VerifyVars :=
  verify_loop start stop (scan_fuel l) (verify_init l).

(** The lines [Universe u: c frames], in the key order in which the
    program iterates over the map. *)
Definition key_le (a b : N * N) : Prop := a.1 ≤ b.1.

#[local] Instance key_le_dec : RelDecision key_le.
Proof. intros a b. unfold key_le. apply _. Defined.

Definition frame_lines (frames : gmap N N) : list (N * N) :=
  merge_sort key_le (map_to_list frames).

(** [total += iter->second] over the lines, in [unsigned int]. *)
Definition sum_frames (lines : list (N * N)) : N :=
  fold_left (λ total line, wrap32 (total + line.2)) lines 0.

(** The part of [VerifyShow] after the loop. *)
Definition verify_report (fl : Flags) (v : VerifyVars) : list Event * Z :=
  let warn_start :=
    if playback_pos v <? FLAGS_start fl
    then [EvWarn (EndsBeforeStart (playback_pos v))] else [] in
  let warn_stop :=
    if playback_pos v <? FLAGS_stop fl
    then [EvWarn (EndsBeforeStop (playback_pos v))] else [] in
  let total_time :=
    if FLAGS_start fl <=? playback_pos v
    then playback_pos v - FLAGS_start fl else 0 in
  let lines := frame_lines (frames_by_universe v) in
  let summary :=
    {| starting_at :=
         if 0 <? FLAGS_start fl then Some (FLAGS_start fl) else None;
       stopping_at :=
         if 0 <? FLAGS_stop fl then Some (FLAGS_stop fl) else None;
       universe_lines := lines;
       total_frames := sum_frames lines;
       total_time := total_time |} in
  match state v with
  | ShowLoader.OK | ShowLoader.END_OF_FILE =>
    (warn_start ++ warn_stop ++ [EvSummary summary], EXIT_OK)
  | s =>
    (warn_start ++ warn_stop ++ [EvSummary summary; EvFatal (LoadError s)],
     EXIT_DATAERR)
  end.

Definition VerifyShow (store : gmap string (list ShowRecord)) (fl : Flags)
  (filename : string) : option (list Event * Z) :=
  match ShowLoader.Load store filename with
  | None => Some ([EvLoad filename], EXIT_NOINPUT)
  | Some l =>
    match verify_scan (FLAGS_start fl) (FLAGS_stop fl) l with
    | None => None
    | Some v =>
      let '(events, status) := verify_report fl v in
      Some (EvLoad filename :: events, status)
    end
  end.

(** ** The collaborators of [main] *)

Section Main.

(** Modelled from the spec: [examples/ShowPlayer.cpp] is not among the
    sources; the player is taken as given, through the exit statuses of
    its [Init] and [Playback]. *)
Variable player_Init : string → Z.
Variable player_Playback : N → N → N → N → N → Z.

(** Modelled from the spec: [examples/ShowRecorder.cpp], [StringSplit] and
    [StringToInt] are not among the sources; what [RecordShow] does once
    it has a universe list to parse is taken as given, through its exit
    status. *)
Variable recorder_run : string → string → Z.

Variable store : gmap string (list ShowRecord).

Definition PlaybackShow (fl : Flags) : list Event * Z :=
  let status := player_Init (FLAGS_playback fl) in
  if (status =? 0)%Z then
    ([], player_Playback (FLAGS_iterations fl) (FLAGS_duration fl)
           (FLAGS_delay fl) (FLAGS_start fl) (FLAGS_stop fl))
  else ([], status).

Definition RecordShow (fl : Flags) : list Event * Z :=
  if String.eqb (FLAGS_universes fl) EmptyString then
    ([EvFatal NoUniverses], EXIT_USAGE)
  else ([], recorder_run (FLAGS_record fl) (FLAGS_universes fl)).

(** [main], after [AppInit] has filled the flags.  The trace records a
    call of a core operation before the events of the operation itself. *)
Definition main (fl : Flags) : option (list Event * Z) :=
  if (0 <? FLAGS_stop fl) && (FLAGS_stop fl <? FLAGS_start fl) then
    Some ([EvFatal StopBeforeStart], EXIT_USAGE)
  else if negb (String.eqb (FLAGS_playback fl) EmptyString) then
    let '(events, status) := PlaybackShow fl in
    Some (EvCall OpPlayback :: events, status)
  else if negb (String.eqb (FLAGS_record fl) EmptyString) then
    let '(events, status) := RecordShow fl in
    Some (EvCall OpRecord :: events, status)
  else if negb (String.eqb (FLAGS_verify fl) EmptyString) then
    match VerifyShow store fl (FLAGS_verify fl) with
    | Some (events, status) => Some (EvCall OpVerify :: events, status)
    | None => None
    end
  else Some ([EvFatal NoModeGiven; EvDisplayUsage], EXIT_OK).

End Main.

(** The number of primary flags that are set. *)
Definition primary_flags_set (fl : Flags) : nat :=
  ((if String.eqb (FLAGS_playback fl) EmptyString then 0 else 1) +
   (if String.eqb (FLAGS_record fl) EmptyString then 0 else 1) +
   (if String.eqb (FLAGS_verify fl) EmptyString then 0 else 1))%nat.

(** ** The scan as a recursion over the records under the cursor *)

(** The records a scan has in front of it are [drop pos records]; the loop
    of [VerifyShow] is the following recursion over them. *)
Fixpoint scan_from (start stop : N) (rest : list ShowRecord) (v : VerifyVars)
  : VerifyVars :=
  match rest with
  | [] =>
    {| loader := loader v; entry := entry v; state := ShowLoader.END_OF_FILE;
       playback_pos := playback_pos v; playing := playing v;
       frames_by_universe := frames_by_universe v;
       clamp_calls := clamp_calls v |}
  | Garbage :: _ =>
    {| loader := loader v; entry := entry v; state := ShowLoader.INVALID_LINE;
       playback_pos := playback_pos v; playing := playing v;
       frames_by_universe := frames_by_universe v;
       clamp_calls := clamp_calls v |}
  | Frame e :: rest' =>
    let l' := {| ShowLoader.records := ShowLoader.records (loader v);
                 ShowLoader.pos := S (ShowLoader.pos (loader v)) |} in
    let pos' := wrap64 (playback_pos v + next_wait e) in
    let frames' := frames_incr (universe e) (frames_by_universe v) in
    if (0 <? stop) && (stop <=? pos') then
      {| loader := l'; entry := e; state := ShowLoader.OK;
         playback_pos := stop; playing := playing v;
         frames_by_universe := frames'; clamp_calls := clamp_calls v |}
    else if negb (playing v) && (start <? pos') then
      scan_from start stop rest'
        {| loader := l'; entry := e; state := ShowLoader.OK;
           playback_pos := pos'; playing := true;
           frames_by_universe := ClampVerifyFrameCount frames';
           clamp_calls := clamp_calls v ++ [ShowLoader.pos (loader v)] |}
    else
      scan_from start stop rest'
        {| loader := l'; entry := e; state := ShowLoader.OK;
           playback_pos := pos'; playing := playing v;
           frames_by_universe := frames'; clamp_calls := clamp_calls v |}
  end.

(** ** Shows as the verifier sees them *)

(** The entries a loader yields before it reports a terminal state. *)
Fixpoint valid_prefix (rs : list ShowRecord) : list ShowEntry :=
  match rs with
  | Frame e :: rs' => e :: valid_prefix rs'
  | _ => []
  end.

(** The terminal state a loader reports once those entries are read. *)
Fixpoint end_state (rs : list ShowRecord) : ShowLoader.State :=
  match rs with
  | [] => ShowLoader.END_OF_FILE
  | Garbage :: _ => ShowLoader.INVALID_LINE
  | Frame _ :: rs' => end_state rs'
  end.

(** The virtual clock after each entry, started at [c]: the values
    [playback_pos += entry.next_wait] takes, in [uint64_t]. *)
Fixpoint ticks (c : N) (es : list ShowEntry) : list N :=
  match es with
  | [] => []
  | e :: es' => wrap64 (c + next_wait e) :: ticks (wrap64 (c + next_wait e)) es'
  end.

(** The virtual clock after all of [es]. *)
Definition clock_from (c : N) (es : list ShowEntry) : N :=
  fold_left (λ c e, wrap64 (c + next_wait e)) es c.

(** The sum of the waits of a show, as a number. *)
Definition show_length (es : list ShowEntry) : N :=
  foldr (λ e s, next_wait e + s) 0 es.

(** The first entry at which the clock strictly exceeds [start]. *)
Definition crossing (start : N) (ts : list N) : option nat :=
  fst <$> list_find (λ t, start < t) ts.

(** The first entry at which a non-zero [stop] is reached. *)
Definition clipping (stop : N) (ts : list N) : option nat :=
  fst <$> list_find (λ t, 0 < stop ∧ stop ≤ t) ts.

(** The number of entries a scan counts: up to and including the one that
    reaches [stop], all of them when none does. *)
Definition counted_of (stop : N) (ts : list N) : nat :=
  match clipping stop ts with
  | Some j => S j
  | None => length ts
  end.

(** The entry at which the playing flag goes from false to true: the
    first crossing of [start], unless the scan has ended by then. *)
Definition clamp_index (start stop : N) (ts : list N) : option nat :=
  match crossing start ts with
  | Some k =>
    match clipping stop ts with
    | Some j => if (j <=? k)%nat then None else Some k
    | None => Some k
    end
  | None => None
  end.

(** Counting the entries [es] one by one on top of the counters [frames],
    with no clamp. *)
Definition count_from (frames : gmap N N) (es : list ShowEntry) : gmap N N :=
  fold_left (λ m e, frames_incr (universe e) m) es frames.

(** The raw number of entries of [es] addressed to universe [u]. *)
Definition entries_for (u : N) (es : list ShowEntry) : N :=
  N.of_nat (length (filter (λ e, universe e = u) es)).

(** Entry [k] is the first one after which the clock strictly exceeds
    [start]. *)
Definition first_crossing (start : N) (ts : list N) (k : nat) : Prop :=
  (∃ t, ts !! k = Some t ∧ start < t) ∧
  (∀ j t, (j < k)%nat → ts !! j = Some t → t ≤ start).

(** The scan has ended, by reaching a non-zero [stop], at entry [k] or
    before. *)
Definition clipped_by (stop : N) (ts : list N) (k : nat) : Prop :=
  ∃ j t, (j ≤ k)%nat ∧ ts !! j = Some t ∧ 0 < stop ∧ stop ≤ t.

(** The summaries among the events of a run. *)
Definition summaries (events : list Event) : list Summary :=
  omap (λ ev, match ev with EvSummary s => Some s | _ => None end) events.

(** [n] further calls of [NextEntry] on a cursor; the result of the last
    one ([n] is at least one). *)
Fixpoint NextEntry_again (n : nat) (l : ShowLoader.t) (entry : ShowEntry)
  : ShowLoader.t * ShowEntry * ShowLoader.State :=
  match n with
  | O => ShowLoader.NextEntry l entry
  | S n' =>
    let '(l', entry', _) := ShowLoader.NextEntry l entry in
    NextEntry_again n' l' entry'
  end.

(** ** The shows and flags of the scenarios *)

Definition show_A : list ShowRecord :=
  [Frame (mkShowEntry 1 100 []); Frame (mkShowEntry 1 200 []);
   Frame (mkShowEntry 2 50 [])].

Definition store_A : gmap string (list ShowRecord) := {["a.show" := show_A]}.

Definition verify_flags (start stop : N) : Flags :=
  {| FLAGS_playback := EmptyString; FLAGS_record := EmptyString;
     FLAGS_verify := "a.show"; FLAGS_universes := EmptyString;
     FLAGS_delay := 0; FLAGS_duration := 0; FLAGS_iterations := 1;
     FLAGS_start := start; FLAGS_stop := stop |}.

(** The entries of Scenario A's show. *)
Definition entries_A : list ShowEntry := valid_prefix show_A.

(** A show with a malformed third record. *)
Definition show_broken : list ShowRecord :=
  [Frame (mkShowEntry 1 100 []); Frame (mkShowEntry 1 200 []); Garbage;
   Frame (mkShowEntry 2 50 [])].

(** A show whose first entry has a zero wait. *)
Definition show_Z : list ShowRecord :=
  [Frame (mkShowEntry 1 0 []); Frame (mkShowEntry 1 5 [])].

(** Collaborators that succeed. *)
Definition player_ok (_ : string) : Z := 0%Z.
Definition playback_ok (_ _ _ _ _ : N) : Z := 0%Z.
Definition recorder_ok (_ _ : string) : Z := 0%Z.

(** A command line with both [--playback] and [--record]. *)
Definition both_flags : Flags :=
  {| FLAGS_playback := "a.show"; FLAGS_record := "b.show";
     FLAGS_verify := EmptyString; FLAGS_universes := "1";
     FLAGS_delay := 0; FLAGS_duration := 0; FLAGS_iterations := 1;
     FLAGS_start := 0; FLAGS_stop := 0 |}.

(** The universes the entries [es] are addressed to. *)
Definition universes_of (es : list ShowEntry) : gset N :=
  list_to_set (universe <$> es).

(** A record without its frame data. *)
Definition strip_payload (r : ShowRecord) : ShowRecord :=
  match r with
  | Frame e => Frame {| universe := universe e; next_wait := next_wait e;
                        buffer := [] |}
  | Garbage => Garbage
  end.

Definition strip_entry (e : ShowEntry) : ShowEntry :=
  {| universe := universe e; next_wait := next_wait e; buffer := [] |}.

(** The sum of the counters of some lines, and of a map, as numbers. *)
Definition lines_total (lines : list (N * N)) : N :=
  foldr (λ line s, line.2 + s) 0 lines.

Definition map_total (frames : gmap N N) : N :=
  lines_total (map_to_list frames).

(** The core operations called in a run, in order. *)
Definition calls_of (events : list Event) : list CoreOp :=
  omap (λ ev, match ev with EvCall op => Some op | _ => None end) events.

(** The window test of [main]. *)
Definition window_invalid (fl : Flags) : bool :=
  (0 <? FLAGS_stop fl) && (FLAGS_stop fl <? FLAGS_start fl).

(** ** [RecordShow], with the universe list and the recorder written out *)

Inductive Signal := SIGINT | SIGTERM.

(** What [RecordShow] does, call by call. *)
Inductive RecordEvent :=
| RecFatalNoUniverses
| RecFatalBadUniverse (token : string)
| RecInit (filename : string) (universes : list N)
| RecStdoutRecording
| RecInstallSignalHandler (signal : Signal)
| RecSignalThreadStart
| RecStop
| RecRecord
| RecStdoutSaved (frames : N).

Section Record.

(** Modelled from the spec: [ola/StringUtils.h] is not among the sources;
    [StringSplit] (input, delimiters) and [StringToInt] are taken as
    given. *)
Variable StringSplit : string → string → list string.
Variable StringToInt : string → option N.

(** Modelled from the spec: [examples/ShowRecorder.cpp] and
    [ola/thread/SignalThread.h] are not among the sources; the status of
    the recorder's [Init], whether the signal thread starts, and the
    recorder's final [FrameCount] are taken as given. *)
Variable recorder_Init : string → list N → Z.
Variable signal_thread_Start : bool.
Variable recorder_FrameCount : N.

(** The [for] loop over [universe_strs]: each token is converted and
    pushed onto [universes]; the first token that does not convert ends
    the program. *)
Fixpoint parse_universes (universe_strs : list string) (universes : list N)
  : string + list N :=
  match universe_strs with
  | [] => inr universes
  | token :: rest =>
    match StringToInt token with
    | None => inl token
    | Some u => parse_universes rest (universes ++ [u])
    end
  end.

Definition RecordShow_calls (fl : Flags) : list RecordEvent * Z :=
  if String.eqb (FLAGS_universes fl) EmptyString then
    ([RecFatalNoUniverses], EXIT_USAGE)
  else
    match parse_universes (StringSplit (FLAGS_universes fl) ",") [] with
    | inl token => ([RecFatalBadUniverse token], EXIT_USAGE)
    | inr universes =>
      let status := recorder_Init (FLAGS_record fl) universes in
      if negb (status =? 0)%Z then
        ([RecInit (FLAGS_record fl) universes], status)
      else
        ([RecInit (FLAGS_record fl) universes; RecStdoutRecording;
          RecInstallSignalHandler SIGINT; RecInstallSignalHandler SIGTERM;
          RecSignalThreadStart] ++
         (if signal_thread_Start then [] else [RecStop]) ++
         [RecRecord; RecStdoutSaved recorder_FrameCount],
         EXIT_OK)
    end.

(** The status of [RecordShow_calls] as a function of the two flags it
    reads: an instance of the recorder taken as given in [RecordShow]. *)
Definition recorder_run_calls (record universes : string) : Z :=
  (RecordShow_calls
     {| FLAGS_playback := EmptyString; FLAGS_record := record;
        FLAGS_verify := EmptyString; FLAGS_universes := universes;
        FLAGS_delay := 0; FLAGS_duration := 0; FLAGS_iterations := 1;
        FLAGS_start := 0; FLAGS_stop := 0 |}).2.

End Record.

(** A conversion and a split that know the tokens of the examples. *)
Definition example_StringToInt (s : string) : option N :=
  match s with
  | "1" => Some 1
  | "2" => Some 2
  | "3" => Some 3
  | _ => None
  end%string.

Definition example_StringSplit (input _ : string) : list string :=
  match input with
  | "1,2" => ["1"; "2"]
  | "1,x,3" => ["1"; "x"; "3"]
  | _ => [input]
  end%string.

Definition record_flags (universes : string) : Flags :=
  {| FLAGS_playback := EmptyString; FLAGS_record := "b.show";
     FLAGS_verify := EmptyString; FLAGS_universes := universes;
     FLAGS_delay := 0; FLAGS_duration := 0; FLAGS_iterations := 1;
     FLAGS_start := 0; FLAGS_stop := 0 |}.

(** ** The scan loop and its recursion *)

Lemma verify_loop_scan_from start stop fuel v :
  (length (ShowLoader.records (loader v)) - ShowLoader.pos (loader v) < fuel)%nat →
  verify_loop start stop fuel v =
  Some (scan_from start stop
          (drop (ShowLoader.pos (loader v)) (ShowLoader.records (loader v))) v).
Proof.
  revert v. induction fuel as [|fuel IH]; intros v Hfuel; [lia|].
  destruct v as [[rs p] e0 s0 c0 b0 m0 cs0]. simpl in Hfuel.
  cbn [verify_loop loader entry ShowLoader.records ShowLoader.pos].
  unfold ShowLoader.NextEntry. cbn [ShowLoader.records ShowLoader.pos].
  destruct (rs !! p) as [[e|]|] eqn:Hp.
  - rewrite (drop_S _ _ _ Hp).
    cbn [scan_from loader ShowLoader.records ShowLoader.pos negb
         ShowLoader.State_eqb playback_pos playing frames_by_universe
         clamp_calls].
    apply lookup_lt_Some in Hp.
    destruct ((0 <? stop) && (stop <=? wrap64 (c0 + next_wait e))); [done|].
    destruct (negb b0 && (start <? wrap64 (c0 + next_wait e)));
      (rewrite IH; [done | simpl; lia]).
  - rewrite (drop_S _ _ _ Hp). done.
  - apply lookup_ge_None in Hp. rewrite (drop_ge _ _ Hp). done.
Qed.

(** The loop of [VerifyShow] always leaves: the scan is total. *)
Lemma verify_scan_scan_from start stop rs :
  verify_scan start stop (ShowLoader.mk rs 0) =
  Some (scan_from start stop rs (verify_init (ShowLoader.mk rs 0))).
Proof.
  unfold verify_scan. rewrite verify_loop_scan_from.
  - by rewrite drop_0.
  - unfold scan_fuel. simpl. lia.
Qed.

(** ** Crossing and clipping, entry by entry *)

Lemma crossing_cons start t ts :
  crossing start (t :: ts) =
  if start <? t then Some 0%nat else S <$> crossing start ts.
Proof.
  unfold crossing. cbn [list_find].
  destruct (N.ltb_spec start t); case_decide; try lia; [done|].
  by destruct (list_find _ ts) as [[??]|].
Qed.

Lemma clipping_cons stop t ts :
  clipping stop (t :: ts) =
  if (0 <? stop) && (stop <=? t) then Some 0%nat else S <$> clipping stop ts.
Proof.
  unfold clipping. cbn [list_find].
  destruct (N.ltb_spec 0 stop), (N.leb_spec stop t); case_decide;
    try lia; simpl; try done;
    by destruct (list_find _ ts) as [[??]|].
Qed.

Lemma counted_of_cons stop t ts :
  counted_of stop (t :: ts) =
  if (0 <? stop) && (stop <=? t) then 1%nat else S (counted_of stop ts).
Proof.
  unfold counted_of. rewrite clipping_cons.
  destruct ((0 <? stop) && (stop <=? t)); [done|].
  by destruct (clipping stop ts).
Qed.

Lemma clamp_index_cons start stop t ts :
  clamp_index start stop (t :: ts) =
  if (0 <? stop) && (stop <=? t) then None
  else if start <? t then Some 0%nat
  else S <$> clamp_index start stop ts.
Proof.
  unfold clamp_index. rewrite crossing_cons, clipping_cons.
  destruct ((0 <? stop) && (stop <=? t)), (start <? t); simpl.
  - done.
  - by destruct (crossing start ts).
  - by destruct (clipping stop ts).
  - destruct (crossing start ts) as [k|], (clipping stop ts) as [j|];
      simpl; try done.
    by destruct (j <=? k)%nat.
Qed.

Lemma length_ticks c es : length (ticks c es) = length es.
Proof. revert c. induction es as [|e es IH]; intros c; simpl; auto. Qed.

Lemma counted_of_le stop ts : (counted_of stop ts ≤ length ts)%nat.
Proof.
  induction ts as [|t ts IH]; [done|]. rewrite counted_of_cons.
  destruct ((0 <? stop) && (stop <=? t)); simpl; lia.
Qed.

Lemma crossing_Some start ts k :
  crossing start ts = Some k ↔
  (∃ t, ts !! k = Some t ∧ start < t) ∧
  (∀ j t, (j < k)%nat → ts !! j = Some t → t ≤ start).
Proof.
  unfold crossing. split.
  - destruct (list_find _ ts) as [[i t]|] eqn:Hfind; [|done].
    simpl. intros [= ->]. apply list_find_Some in Hfind as (Hk & Ht & Hfirst).
    split; [eauto|]. intros j t' Hj Hl.
    specialize (Hfirst j t' Hl Hj). lia.
  - intros [(t & Hk & Ht) Hfirst].
    assert (list_find (λ t, start < t) ts = Some (k, t)) as ->; [|done].
    apply list_find_Some. repeat split; [done..|].
    intros j t' Hl Hj. specialize (Hfirst j t' Hj Hl). lia.
Qed.

Lemma clipping_Some stop ts k :
  clipping stop ts = Some k ↔
  (∃ t, ts !! k = Some t ∧ 0 < stop ∧ stop ≤ t) ∧
  (∀ j t, (j < k)%nat → ts !! j = Some t → ¬ (0 < stop ∧ stop ≤ t)).
Proof.
  unfold clipping. split.
  - destruct (list_find _ ts) as [[i t]|] eqn:Hfind; [|done].
    simpl. intros [= ->]. apply list_find_Some in Hfind as (Hk & Ht & Hfirst).
    split; [eauto|]. intros j t' Hj Hl. exact (Hfirst j t' Hl Hj).
  - intros [(t & Hk & Ht) Hfirst].
    assert (list_find (λ t, 0 < stop ∧ stop ≤ t) ts = Some (k, t)) as ->;
      [|done].
    apply list_find_Some. repeat split; [done|tauto|tauto|].
    intros j t' Hl Hj. exact (Hfirst j t' Hj Hl).
Qed.

Lemma clipping_None stop ts :
  clipping stop ts = None ↔
  ∀ j t, ts !! j = Some t → ¬ (0 < stop ∧ stop ≤ t).
Proof.
  unfold clipping. destruct (list_find _ ts) as [[i t]|] eqn:Hfind; simpl.
  - apply list_find_Some in Hfind as (Hk & Ht & _). split; [done|].
    intros H. by destruct (H i t Hk).
  - split; [|done]. intros _ j t Hl.
    eapply list_find_None in Hfind. rewrite Forall_forall in Hfind.
    apply Hfind. by eapply list_elem_of_lookup_2.
Qed.

(** ** What a scan leaves in the variables of [VerifyShow] *)

Section Scan.

Variables start stop : N.

(** One iteration of the scan: unfold it at a well-formed record and split
    on the stop test and on the start test. *)
Ltac scan_step e v :=
  cbn [scan_from valid_prefix ticks];
  rewrite ?clipping_cons, ?counted_of_cons, ?clamp_index_cons;
  destruct ((0 <? stop) && (stop <=? wrap64 (playback_pos v + next_wait e)))
    eqn:Hclip;
  [|destruct (negb (playing v) &&
              (start <? wrap64 (playback_pos v + next_wait e))) eqn:Hcross].

Lemma scan_from_pos rest v :
  ShowLoader.pos (loader (scan_from start stop rest v)) =
  (ShowLoader.pos (loader v) +
   counted_of stop (ticks (playback_pos v) (valid_prefix rest)))%nat.
Proof.
  revert v. induction rest as [|[e|] rest IH]; intros v.
  - simpl. unfold counted_of. simpl. lia.
  - scan_step e v; [simpl; lia|rewrite IH; simpl; lia..].
  - simpl. unfold counted_of. simpl. lia.
Qed.

Lemma scan_from_state rest v :
  state (scan_from start stop rest v) =
  match clipping stop (ticks (playback_pos v) (valid_prefix rest)) with
  | Some _ => ShowLoader.OK
  | None => end_state rest
  end.
Proof.
  revert v. induction rest as [|[e|] rest IH]; intros v; [done| |done].
  scan_step e v; [done|rewrite IH; simpl..];
    by destruct (clipping stop _).
Qed.

Lemma scan_from_playback_pos rest v :
  playback_pos (scan_from start stop rest v) =
  match clipping stop (ticks (playback_pos v) (valid_prefix rest)) with
  | Some _ => stop
  | None => clock_from (playback_pos v) (valid_prefix rest)
  end.
Proof.
  revert v. induction rest as [|[e|] rest IH]; intros v; [done| |done].
  scan_step e v; [done|rewrite IH; simpl..];
    by destruct (clipping stop _).
Qed.

Lemma scan_from_clamp_calls rest v :
  clamp_calls (scan_from start stop rest v) =
  clamp_calls v ++
  (if playing v then []
   else option_list
          ((λ k, ShowLoader.pos (loader v) + k)%nat <$>
           clamp_index start stop (ticks (playback_pos v) (valid_prefix rest)))).
Proof.
  revert v. induction rest as [|[e|] rest IH]; intros v.
  - simpl. destruct (playing v); by rewrite app_nil_r.
  - scan_step e v.
    + simpl. destruct (playing v); by rewrite app_nil_r.
    + rewrite IH. simpl. destruct (playing v); [done|]. simpl in Hcross.
      rewrite Hcross. simpl. rewrite <-app_assoc. simpl.
      by rewrite Nat.add_0_r.
    + rewrite IH. simpl. destruct (playing v); [done|]. simpl in Hcross.
      rewrite Hcross. f_equal.
      destruct (clamp_index start stop _); simpl; [|done].
      f_equal. lia.
  - simpl. destruct (playing v); by rewrite app_nil_r.
Qed.

Lemma scan_from_frames rest v :
  let es := valid_prefix rest in
  let ts := ticks (playback_pos v) es in
  frames_by_universe (scan_from start stop rest v) =
  match (if playing v then None else clamp_index start stop ts) with
  | Some k =>
    count_from
      (ClampVerifyFrameCount (count_from (frames_by_universe v) (take (S k) es)))
      (drop (S k) (take (counted_of stop ts) es))
  | None => count_from (frames_by_universe v) (take (counted_of stop ts) es)
  end.
Proof.
  revert v. induction rest as [|[e|] rest IH]; intros v.
  - simpl. by destruct (playing v).
  - cbv zeta in *. scan_step e v.
    + simpl. by destruct (playing v).
    + rewrite IH. simpl. destruct (playing v); [done|]. simpl in Hcross.
      rewrite Hcross. simpl. by rewrite drop_0.
    + rewrite IH. simpl. destruct (playing v); [done|]. simpl in Hcross.
      rewrite Hcross.
      by destruct (clamp_index start stop _).
  - simpl. by destruct (playing v).
Qed.

End Scan.

Lemma scan_from_playing start stop rest v :
  playing (scan_from start stop rest v) =
  playing v ||
  bool_decide (is_Some (clamp_index start stop
                          (ticks (playback_pos v) (valid_prefix rest)))).
Proof.
  revert v. induction rest as [|[e|] rest IH]; intros v.
  - simpl. by rewrite orb_false_r.
  - cbn [scan_from valid_prefix ticks]. rewrite clamp_index_cons.
    destruct ((0 <? stop) && (stop <=? wrap64 (playback_pos v + next_wait e))).
    { simpl. by rewrite orb_false_r. }
    destruct (playing v) eqn:Hp; simpl.
    + by rewrite IH.
    + destruct (start <? _); rewrite IH; simpl; [done|].
      by destruct (clamp_index start stop _).
  - simpl. by rewrite orb_false_r.
Qed.

(** ** Counters *)

Lemma wrap32_small n : n < 2 ^ 32 → wrap32 n = n.
Proof. apply N.mod_small. Qed.

Lemma wrap64_small n : n < 2 ^ 64 → wrap64 n = n.
Proof. apply N.mod_small. Qed.

Lemma frame_count_empty u : frame_count ∅ u = 0.
Proof. unfold frame_count. by rewrite lookup_empty. Qed.

Lemma frame_count_incr u u' (frames : gmap N N) :
  frame_count (frames_incr u frames) u' =
  if decide (u = u') then wrap32 (frame_count frames u + 1)
  else frame_count frames u'.
Proof.
  unfold frame_count, frames_incr. rewrite lookup_insert.
  by case_decide; subst.
Qed.

Lemma frame_count_clamp (frames : gmap N N) u :
  frame_count (ClampVerifyFrameCount frames) u = N.min (frame_count frames u) 1.
Proof.
  unfold frame_count, ClampVerifyFrameCount. rewrite lookup_fmap.
  destruct (frames !! u) as [c|]; simpl; [|done].
  unfold clamp_count. destruct (N.ltb_spec 1 c); lia.
Qed.

(** The clamp changes nothing where no counter exceeds one. *)
Lemma clamp_noop (frames : gmap N N) :
  (∀ u, frame_count frames u ≤ 1) → ClampVerifyFrameCount frames = frames.
Proof.
  intros Hle. apply map_eq. intros u. unfold ClampVerifyFrameCount.
  rewrite lookup_fmap. specialize (Hle u). unfold frame_count in Hle.
  destruct (frames !! u) as [c|]; simpl in *; [|done].
  unfold clamp_count. destruct (N.ltb_spec 1 c); [lia|done].
Qed.

Lemma entries_for_cons u e es :
  entries_for u (e :: es) =
  (if decide (universe e = u) then 1 else 0) + entries_for u es.
Proof.
  unfold entries_for. rewrite filter_cons.
  case_decide; simpl; lia.
Qed.

Lemma entries_for_le_length u es : entries_for u es ≤ N.of_nat (length es).
Proof.
  unfold entries_for. pose proof (length_filter (λ e, universe e = u) es). lia.
Qed.

Lemma frame_count_count_from (frames : gmap N N) es u :
  frame_count frames u < 2 ^ 32 →
  frame_count (count_from frames es) u =
  wrap32 (frame_count frames u + entries_for u es).
Proof.
  revert frames. induction es as [|e es IH]; intros frames Hlt.
  - unfold entries_for. simpl. rewrite N.add_0_r. by rewrite wrap32_small.
  - cbn [count_from fold_left]. fold (count_from (frames_incr (universe e) frames) es).
    rewrite IH, frame_count_incr, entries_for_cons.
    + case_decide as Hu; [subst u|done].
      unfold wrap32. rewrite N.Div0.add_mod_idemp_l. f_equal. lia.
    + rewrite frame_count_incr. case_decide; [|done].
      unfold wrap32. apply N.mod_lt. done.
Qed.

(** Without a clamp, and below 2^32 entries, a counter is the raw number
    of entries of its universe. *)
Lemma frame_count_raw es u :
  N.of_nat (length es) < 2 ^ 32 →
  frame_count (count_from ∅ es) u = entries_for u es.
Proof.
  intros Hlen. rewrite frame_count_count_from, frame_count_empty.
  - apply wrap32_small. pose proof (entries_for_le_length u es). lia.
  - by rewrite frame_count_empty.
Qed.

(** ** The virtual clock *)

Lemma clock_from_wrap c es :
  clock_from (wrap64 c) es = wrap64 (c + show_length es).
Proof.
  revert c. induction es as [|e es IH]; intros c;
    unfold clock_from; cbn [fold_left show_length foldr].
  - by rewrite N.add_0_r.
  - fold (clock_from (wrap64 (wrap64 c + next_wait e)) es).
    fold (show_length es). rewrite IH.
    unfold wrap64. rewrite <-N.add_assoc, N.Div0.add_mod_idemp_l. done.
Qed.

Lemma clock_from_0 es : clock_from 0 es = wrap64 (show_length es).
Proof.
  change (clock_from 0 es) with (clock_from (wrap64 0) es).
  by rewrite clock_from_wrap, N.add_0_l.
Qed.

Lemma valid_prefix_frames es : valid_prefix (Frame <$> es) = es.
Proof. induction es as [|e es IH]; simpl; by f_equal. Qed.

Lemma end_state_frames es : end_state (Frame <$> es) = ShowLoader.END_OF_FILE.
Proof. induction es as [|e es IH]; simpl; done. Qed.

Lemma valid_prefix_app_garbage es rest :
  valid_prefix ((Frame <$> es) ++ Garbage :: rest) = es.
Proof. induction es as [|e es IH]; simpl; by f_equal. Qed.

Lemma end_state_app_garbage es rest :
  end_state ((Frame <$> es) ++ Garbage :: rest) = ShowLoader.INVALID_LINE.
Proof. induction es as [|e es IH]; simpl; done. Qed.

(** ** Scenarios *)

(** C1, as stated, fails: in Scenario B (Scenario A's show, start 150,
    no stop) the verifier does not end with two frames for universe 1.
    The clamp runs after the crossing entry has been counted, so that
    entry's increment is clamped with the rest; the counter ends at 1. *)
Lemma scenario_B_not_two_frames :
  ∃ v, verify_scan 150 0 (ShowLoader.mk show_A 0) = Some v ∧
       frame_count (frames_by_universe v) 1 ≠ 2.
Proof. eexists. split; [vm_compute; reflexivity|]. vm_compute. discriminate. Qed.

(** C1, amended: in Scenario B the clock is 100 after the first entry and
    300 after the second, the clamp is called once, at the second entry
    (cursor position 1), on the counters that already include that entry,
    and the verifier reports one frame for universe 1 and one frame for
    universe 2, two frames in total, over 200 ms. *)
Theorem scenario_B :
  ticks 0 entries_A = [100; 300; 350] ∧
  (∃ v, verify_scan 150 0 (ShowLoader.mk show_A 0) = Some v ∧
        clamp_calls v = [1%nat] ∧
        frame_count (frames_by_universe v) 1 = 1 ∧
        frame_count (frames_by_universe v) 2 = 1) ∧
  VerifyShow store_A (verify_flags 150 0) "a.show" =
  Some ([EvLoad "a.show";
         EvSummary {| starting_at := Some 150; stopping_at := None;
                      universe_lines := [(1, 1); (2, 1)];
                      total_frames := 2; total_time := 200 |}],
        EXIT_OK).
Proof.
  split; [reflexivity|]. split; [|vm_compute; reflexivity].
  eexists. split; [vm_compute; reflexivity|]. by vm_compute.
Qed.

(** C3: in Scenario C (Scenario A's show, start 0, stop 120) the clock is
    100 after the first entry, which is below 120, and 300 after the
    second, which is not; the scan counts both, sets the position to 120
    and ends there, with the loader's last answer still an entry.  The
    verifier reports two frames for universe 1, none for universe 2 (it
    has no line), and a playback time of 120 ms. *)
Theorem scenario_C :
  ticks 0 entries_A = [100; 300; 350] ∧
  (∃ v, verify_scan 0 120 (ShowLoader.mk show_A 0) = Some v ∧
        ShowLoader.pos (loader v) = 2%nat ∧
        state v = ShowLoader.OK ∧
        playback_pos v = 120 ∧
        frame_count (frames_by_universe v) 1 = 2 ∧
        frame_count (frames_by_universe v) 2 = 0) ∧
  VerifyShow store_A (verify_flags 0 120) "a.show" =
  Some ([EvLoad "a.show";
         EvSummary {| starting_at := None; stopping_at := Some 120;
                      universe_lines := [(1, 2)];
                      total_frames := 2; total_time := 120 |}],
        EXIT_OK).
Proof.
  split; [reflexivity|]. split; [|vm_compute; reflexivity].
  eexists. split; [vm_compute; reflexivity|]. by vm_compute.
Qed.

(** ** The loader's terminal states *)

(** C8: once [NextEntry] has returned a state other than [OK] (the end of
    the show or a malformed record), the cursor has not moved, and each of
    the following calls on it, whatever entry the caller passes, returns
    the same state and leaves the cursor and the caller's entry as they
    are. *)
Theorem NextEntry_terminal_sticky l e l' e' s :
  ShowLoader.NextEntry l e = (l', e', s) →
  s ≠ ShowLoader.OK →
  l' = l ∧ e' = e ∧
  ∀ n e2, NextEntry_again n l' e2 = (l', e2, s).
Proof.
  unfold ShowLoader.NextEntry. intros Hnext Hs.
  destruct (ShowLoader.records l !! ShowLoader.pos l) as [[e0|]|] eqn:Hl;
    inversion Hnext; subst; try done.
  - repeat split. induction n as [|n IH]; intros e2; simpl;
      unfold ShowLoader.NextEntry; rewrite Hl; [done|apply IH].
  - repeat split. induction n as [|n IH]; intros e2; simpl;
      unfold ShowLoader.NextEntry; rewrite Hl; [done|apply IH].
Qed.

Lemma NextEntry_terminal_sticky_witness :
  let l := ShowLoader.mk [Frame (mkShowEntry 1 100 []); Garbage] 1 in
  ShowLoader.NextEntry l empty_entry = (l, empty_entry, ShowLoader.INVALID_LINE) ∧
  ShowLoader.INVALID_LINE ≠ ShowLoader.OK ∧
  (l = l ∧ empty_entry = empty_entry ∧
   ∀ n e2, NextEntry_again n l e2 = (l, e2, ShowLoader.INVALID_LINE)).
Proof.
  split; [reflexivity|]. split; [discriminate|].
  apply (NextEntry_terminal_sticky
           (ShowLoader.mk [Frame (mkShowEntry 1 100 []); Garbage] 1)
           empty_entry
           (ShowLoader.mk [Frame (mkShowEntry 1 100 []); Garbage] 1)
           empty_entry ShowLoader.INVALID_LINE);
    [reflexivity | discriminate].
Defined.

(** ** The dispatch of [main] *)

(** C5, as stated, fails: with both [--playback] and [--record] given,
    [main] does not return the usage exit code; it calls [PlaybackShow]
    and returns its status. *)
Lemma main_two_primary_flags_dispatches :
  primary_flags_set both_flags = 2%nat ∧
  main player_ok playback_ok recorder_ok store_A both_flags =
  Some ([EvCall OpPlayback], EXIT_OK) ∧
  EXIT_OK ≠ EXIT_USAGE.
Proof. by vm_compute. Qed.

(** C5, amended: [main] has no test for several primary flags.  With a
    valid window and more than one primary flag set it calls exactly one
    core operation, chosen by precedence, [--playback] before [--record]
    ([--verify] is then never chosen), and returns that operation's
    status. *)
Theorem main_precedence player_Init player_Playback recorder_run store fl :
  (1 < primary_flags_set fl)%nat →
  ¬ (0 < FLAGS_stop fl ∧ FLAGS_stop fl < FLAGS_start fl) →
  main player_Init player_Playback recorder_run store fl =
  if String.eqb (FLAGS_playback fl) EmptyString then
    Some (EvCall OpRecord :: (RecordShow recorder_run fl).1,
          (RecordShow recorder_run fl).2)
  else
    Some (EvCall OpPlayback :: (PlaybackShow player_Init player_Playback fl).1,
          (PlaybackShow player_Init player_Playback fl).2).
Proof.
  intros Hset Hwin. unfold main, primary_flags_set in *.
  destruct ((0 <? FLAGS_stop fl) && (FLAGS_stop fl <? FLAGS_start fl)) eqn:Hw.
  { apply andb_true_iff in Hw as [H1 H2].
    apply N.ltb_lt in H1, H2. tauto. }
  destruct (String.eqb (FLAGS_playback fl) EmptyString); simpl.
  - destruct (String.eqb (FLAGS_record fl) EmptyString); simpl.
    + destruct (String.eqb (FLAGS_verify fl) EmptyString); simpl in Hset; lia.
    + by destruct (RecordShow recorder_run fl).
  - by destruct (PlaybackShow player_Init player_Playback fl).
Qed.

Lemma main_precedence_witness :
  main player_ok playback_ok recorder_ok store_A both_flags =
  Some (EvCall OpPlayback :: (PlaybackShow player_ok playback_ok both_flags).1,
        (PlaybackShow player_ok playback_ok both_flags).2).
Proof.
  apply (main_precedence player_ok playback_ok recorder_ok store_A both_flags).
  - vm_compute. lia.
  - vm_compute. intros [? ?]. discriminate.
Defined.

(** C6: whenever [--stop] is non-zero and below [--start], [main] logs the
    fatal message and returns the usage exit code; nothing else happens:
    no core operation is called and no show is loaded, whatever the other
    flags, the shows at hand and the collaborators are. *)
Theorem main_stop_before_start player_Init player_Playback recorder_run store fl :
  FLAGS_stop fl ≠ 0 →
  FLAGS_stop fl < FLAGS_start fl →
  main player_Init player_Playback recorder_run store fl =
  Some ([EvFatal StopBeforeStart], EXIT_USAGE).
Proof.
  intros Hstop Hlt. unfold main.
  assert ((0 <? FLAGS_stop fl) = true) as -> by (apply N.ltb_lt; lia).
  assert ((FLAGS_stop fl <? FLAGS_start fl) = true) as -> by by apply N.ltb_lt.
  done.
Qed.

Lemma main_stop_before_start_witness :
  main player_ok playback_ok recorder_ok store_A (verify_flags 200 100) =
  Some ([EvFatal StopBeforeStart], EXIT_USAGE).
Proof.
  apply main_stop_before_start.
  - vm_compute. discriminate.
  - vm_compute. reflexivity.
Defined.

(** ** The verifier on an arbitrary show *)

Lemma clamp_index_Some start stop ts k :
  clamp_index start stop ts = Some k ↔
  first_crossing start ts k ∧ ¬ clipped_by stop ts k.
Proof.
  unfold clamp_index, first_crossing, clipped_by. split.
  - destruct (crossing start ts) as [k'|] eqn:Hcross; [|done].
    apply crossing_Some in Hcross.
    destruct (clipping stop ts) as [j|] eqn:Hclip.
    + destruct (Nat.leb_spec j k'); [done|]. intros [= ->].
      split; [done|]. intros (j' & t & Hj' & Hl & Hstop).
      apply clipping_Some in Hclip as [_ Hfirst].
      apply (Hfirst j' t); [lia|done..].
    + intros [= ->]. split; [done|]. intros (j' & t & Hj' & Hl & Hstop).
      eapply clipping_None in Hclip; eauto.
  - intros [Hcross Hnot]. apply crossing_Some in Hcross. rewrite Hcross.
    destruct (clipping stop ts) as [j|] eqn:Hclip; [|done].
    destruct (Nat.leb_spec j k); [|done].
    apply clipping_Some in Hclip as [(t & Hl & Hstop) _].
    destruct Hnot. eauto.
Qed.

Lemma verify_scan_clamp_calls start stop rs :
  clamp_calls (scan_from start stop rs (verify_init (ShowLoader.mk rs 0))) =
  option_list (clamp_index start stop (ticks 0 (valid_prefix rs))).
Proof.
  rewrite scan_from_clamp_calls. simpl.
  by destruct (clamp_index start stop _).
Qed.

(** C2: the clamp keeps the universes of the map and replaces the counter
    [c] of each by [min c 1].  In every pass it is called at most once,
    and the playing flag ends up set exactly when it was called.  It is
    called only at the first entry after which the clock strictly exceeds
    [start], and the counters then are the clamped counts of the entries
    up to that one, with the later entries counted on top.  It is called
    there whenever the scan gets as far as the start test of that entry,
    that is, unless the scan has ended at that entry or before by reaching
    a non-zero [stop]. *)
Theorem clamp_law start stop rs :
  let es := valid_prefix rs in
  let ts := ticks 0 es in
  (∀ (frames : gmap N N),
     dom (ClampVerifyFrameCount frames) = dom frames ∧
     ∀ u, frame_count (ClampVerifyFrameCount frames) u =
          N.min (frame_count frames u) 1) ∧
  ∃ v, verify_scan start stop (ShowLoader.mk rs 0) = Some v ∧
       (length (clamp_calls v) ≤ 1)%nat ∧
       (playing v = true ↔ ∃ k, clamp_calls v = [k]) ∧
       (∀ k, k ∈ clamp_calls v →
             first_crossing start ts k ∧
             frames_by_universe v =
             count_from
               (ClampVerifyFrameCount (count_from ∅ (take (S k) es)))
               (drop (S k) (take (ShowLoader.pos (loader v)) es))) ∧
       (∀ k, first_crossing start ts k → ¬ clipped_by stop ts k →
             clamp_calls v = [k]).
Proof.
  intros es ts. split.
  { intros frames. split; [apply dom_fmap_L | apply frame_count_clamp]. }
  eexists. split; [apply verify_scan_scan_from|].
  rewrite verify_scan_clamp_calls, scan_from_playing, scan_from_frames,
    scan_from_pos.
  cbn [verify_init playing playback_pos frames_by_universe loader
       ShowLoader.pos orb Nat.add].
  fold es ts. split_and!.
  - destruct (clamp_index start stop ts); simpl; lia.
  - destruct (clamp_index start stop ts) as [k|]; simpl.
    + split; [eauto|done].
    + split; [done|]. by intros [k ?].
  - intros k. destruct (clamp_index start stop ts) as [k'|] eqn:Hindex; simpl.
    + intros ->%list_elem_of_singleton. split; [|done].
      by apply clamp_index_Some in Hindex as [? _].
    + by intros ?%elem_of_nil.
  - intros k Hcross Hclip.
    by rewrite (proj2 (clamp_index_Some start stop ts k) (conj Hcross Hclip)).
Qed.

Lemma clipping_stop_0 ts : clipping 0 ts = None.
Proof. apply clipping_None. intros j t _ [? _]. lia. Qed.

Lemma summaries_report fl v :
  ∃ s, summaries (verify_report fl v).1 = [s] ∧
       total_time s =
       (if FLAGS_start fl <=? playback_pos v
        then playback_pos v - FLAGS_start fl else 0) ∧
       universe_lines s = frame_lines (frames_by_universe v).
Proof.
  unfold verify_report.
  destruct (state v), (playback_pos v <? FLAGS_start fl),
    (playback_pos v <? FLAGS_stop fl); simpl; eauto.
Qed.

(** C4: for a show the loader reads to its end without a format error,
    and a window without a stop, the playback time the verifier reports
    is the sum of all waits minus [start], or zero where that would be
    negative; the run is a success.  The sum is the one the [uint64_t]
    position holds, that is, it is below 2^64. *)
Theorem total_time_unbounded store fl filename es :
  store !! filename = Some (Frame <$> es) →
  FLAGS_stop fl = 0 →
  show_length es < 2 ^ 64 →
  ∃ events s,
    VerifyShow store fl filename = Some (events, EXIT_OK) ∧
    summaries events = [s] ∧
    Z.of_N (total_time s) =
    Z.max 0 (Z.of_N (show_length es) - Z.of_N (FLAGS_start fl)).
Proof.
  intros Hstore Hstop Hlen. unfold VerifyShow, ShowLoader.Load.
  rewrite Hstore, verify_scan_scan_from, Hstop.
  set (v := scan_from _ _ _ _).
  assert (state v = ShowLoader.END_OF_FILE) as Hstate.
  { unfold v. by rewrite scan_from_state, clipping_stop_0, end_state_frames. }
  assert (playback_pos v = show_length es) as Hpos.
  { unfold v. rewrite scan_from_playback_pos, clipping_stop_0.
    rewrite valid_prefix_frames. simpl. rewrite clock_from_0.
    by apply wrap64_small. }
  destruct (summaries_report fl v) as (s & Hs & Htime & _).
  destruct (verify_report fl v) as [events status] eqn:Hreport.
  exists (EvLoad filename :: events), s. split_and!.
  - unfold verify_report in Hreport. rewrite Hstate in Hreport.
    by inversion Hreport.
  - done.
  - rewrite Htime, Hpos. destruct (N.leb_spec (FLAGS_start fl) (show_length es)); lia.
Qed.

Lemma total_time_unbounded_witness :
  ∃ events s,
    VerifyShow store_A (verify_flags 150 0) "a.show" = Some (events, EXIT_OK) ∧
    summaries events = [s] ∧
    Z.of_N (total_time s) = Z.max 0 (Z.of_N (show_length entries_A) - 150).
Proof.
  apply (total_time_unbounded store_A (verify_flags 150 0) "a.show" entries_A).
  - reflexivity.
  - reflexivity.
  - vm_compute. reflexivity.
Defined.

(** The report depends on the position, the counters and the state the
    scan ended with, and on nothing else. *)
Lemma verify_report_ext fl v1 v2 :
  playback_pos v1 = playback_pos v2 →
  frames_by_universe v1 = frames_by_universe v2 →
  state v1 = ShowLoader.END_OF_FILE →
  state v2 = ShowLoader.INVALID_LINE →
  verify_report fl v2 =
  ((verify_report fl v1).1 ++ [EvFatal (LoadError ShowLoader.INVALID_LINE)],
   EXIT_DATAERR) ∧
  (verify_report fl v1).2 = EXIT_OK.
Proof.
  intros Hpos Hframes Hs1 Hs2. unfold verify_report.
  rewrite Hpos, Hframes, Hs1, Hs2. cbn [fst snd]. split; [|done].
  f_equal. by rewrite <-!app_assoc.
Qed.

(** C7: the exit status of [VerifyShow] follows from how the scan ended.
    If the show cannot be loaded, the status is [EXIT_NOINPUT] and nothing
    is scanned.  Otherwise the scan ends in exactly one of three ways: by
    reaching [stop] at an entry (the loader's last answer is then still
    [OK]), at the end of the show, or at a malformed record; the status is
    [EXIT_OK] in the first two and [EXIT_DATAERR] in the third.  In the
    third the run still prints its report: it is the report of the show
    cut before the malformed record, followed by the fatal message. *)
Theorem VerifyShow_exit_status store fl filename :
  match store !! filename with
  | None =>
    VerifyShow store fl filename = Some ([EvLoad filename], EXIT_NOINPUT)
  | Some rs =>
    let clip := clipping (FLAGS_stop fl) (ticks 0 (valid_prefix rs)) in
    ∃ v events status,
      verify_scan (FLAGS_start fl) (FLAGS_stop fl) (ShowLoader.mk rs 0) = Some v ∧
      VerifyShow store fl filename = Some (EvLoad filename :: events, status) ∧
      (state v = ShowLoader.OK ↔ is_Some clip) ∧
      (state v = ShowLoader.END_OF_FILE ↔
       clip = None ∧ end_state rs = ShowLoader.END_OF_FILE) ∧
      (state v = ShowLoader.INVALID_LINE ↔
       clip = None ∧ end_state rs = ShowLoader.INVALID_LINE) ∧
      status = match state v with
               | ShowLoader.INVALID_LINE => EXIT_DATAERR
               | _ => EXIT_OK
               end ∧
      (∀ es rest,
         rs = (Frame <$> es) ++ Garbage :: rest →
         clip = None →
         ∃ events_cut,
           VerifyShow (<[filename := Frame <$> es]> store) fl filename =
           Some (EvLoad filename :: events_cut, EXIT_OK) ∧
           events = events_cut ++ [EvFatal (LoadError ShowLoader.INVALID_LINE)] ∧
           status = EXIT_DATAERR)
  end.
Proof.
  destruct (store !! filename) as [rs|] eqn:Hstore.
  2: { unfold VerifyShow, ShowLoader.Load. by rewrite Hstore. }
  intros clip. unfold VerifyShow, ShowLoader.Load.
  rewrite Hstore, verify_scan_scan_from.
  set (v := scan_from _ _ rs _).
  assert (state v = match clip with
                    | Some _ => ShowLoader.OK | None => end_state rs end)
    as Hstate by apply scan_from_state.
  assert (end_state rs ≠ ShowLoader.OK) as Hend.
  { clear. induction rs as [|[e|] rs IH]; done. }
  destruct (verify_report fl v) as [events status] eqn:Hreport.
  exists v, events, status. split_and!; try done.
  - rewrite Hstate. destruct clip as [j|]; [by eauto|].
    split; [done | by intros [? ?]].
  - rewrite Hstate. destruct clip; intuition congruence.
  - rewrite Hstate. destruct clip; intuition congruence.
  - unfold verify_report in Hreport.
    by destruct (state v); inversion Hreport.
  - intros es rest -> Hclip. rewrite lookup_insert_eq, verify_scan_scan_from.
    set (v1 := scan_from _ _ (Frame <$> es) _).
    destruct (verify_report_ext fl v1 v) as [Hv Hok].
    + unfold v1, v. rewrite !scan_from_playback_pos.
      by rewrite valid_prefix_frames, valid_prefix_app_garbage.
    + unfold v1, v. rewrite !scan_from_frames. simpl.
      by rewrite valid_prefix_frames, valid_prefix_app_garbage.
    + unfold v1. rewrite scan_from_state, valid_prefix_frames. simpl.
      unfold clip in Hclip. rewrite valid_prefix_app_garbage in Hclip.
      by rewrite Hclip, end_state_frames.
    + by rewrite Hstate, Hclip, end_state_app_garbage.
    + rewrite Hreport in Hv. inversion Hv; subst.
      destruct (verify_report fl v1) as [events1 status1]. simpl in *.
      subst. eauto.
Qed.

Lemma VerifyShow_exit_status_witness :
  VerifyShow {[ "b.show" := show_broken ]} (verify_flags 0 0) "a.show" =
  Some ([EvLoad "a.show"], EXIT_NOINPUT) ∧
  ∃ events_cut,
    VerifyShow {[ "b.show" := take 2 show_broken ]} (verify_flags 0 0) "b.show" =
    Some (EvLoad "b.show" :: events_cut, EXIT_OK) ∧
    VerifyShow {[ "b.show" := show_broken ]} (verify_flags 0 0) "b.show" =
    Some (EvLoad "b.show" ::
          events_cut ++ [EvFatal (LoadError ShowLoader.INVALID_LINE)],
          EXIT_DATAERR).
Proof.
  split.
  - exact (VerifyShow_exit_status {[ "b.show" := show_broken ]}
             (verify_flags 0 0) "a.show").
  - destruct (VerifyShow_exit_status {[ "b.show" := show_broken ]}
                (verify_flags 0 0) "b.show")
      as (v & events & status & _ & Hrun & _ & _ & _ & _ & Hcut).
    destruct (Hcut [mkShowEntry 1 100 []; mkShowEntry 1 200 []]
                [Frame (mkShowEntry 2 50 [])])
      as (events_cut & Hrun_cut & -> & ->); [reflexivity..|].
    exists events_cut. split; [|exact Hrun].
    exact Hrun_cut.
Defined.

(** ** The window's start and the clamp *)

(** C9, as stated, fails: with start 0 the clamp is called, at the first
    entry after which the clock is not zero, and it is not always a no-op.
    On a show whose first entry has a zero wait, two entries of universe 1
    are counted and the counter of universe 1 ends at 1. *)
Lemma start_zero_clamps :
  ∃ v, verify_scan 0 0 (ShowLoader.mk show_Z 0) = Some v ∧
       clamp_calls v = [1%nat] ∧
       ShowLoader.pos (loader v) = 2%nat ∧
       entries_for 1 (take 2 (valid_prefix show_Z)) = 2 ∧
       frame_count (frames_by_universe v) 1 = 1.
Proof. eexists. split; [vm_compute; reflexivity|]. by vm_compute. Qed.

Lemma count_from_cons frames e es :
  count_from frames (e :: es) = count_from (frames_incr (universe e) frames) es.
Proof. done. Qed.

Lemma frame_count_first e u :
  frame_count (count_from ∅ [e]) u ≤ 1.
Proof.
  rewrite count_from_cons. cbn [count_from fold_left].
  rewrite frame_count_incr, !frame_count_empty.
  case_decide; [|lia]. by vm_compute.
Qed.

(** C9, amended: with start 0 and a first entry whose wait is not zero,
    the clamp is called at that first entry and nowhere else (and not at
    all when the scan ends there by reaching [stop]); it finds no counter
    above 1, so it changes nothing, and every counter ends at the raw
    number of entries counted for its universe.  The show has fewer than
    2^32 records and the wait is a [uint32]. *)
Theorem start_zero_counts stop e rs :
  0 < next_wait e →
  next_wait e < 2 ^ 32 →
  N.of_nat (length (Frame e :: rs)) < 2 ^ 32 →
  ∃ v, verify_scan 0 stop (ShowLoader.mk (Frame e :: rs) 0) = Some v ∧
       (clamp_calls v = [0%nat] ∨
        clamp_calls v = [] ∧ 0 < stop ∧ stop ≤ next_wait e) ∧
       ∀ u, frame_count (frames_by_universe v) u =
            entries_for u (take (ShowLoader.pos (loader v))
                             (valid_prefix (Frame e :: rs))).
Proof.
  intros Hpos Hwait Hlen. eexists. split; [apply verify_scan_scan_from|].
  rewrite verify_scan_clamp_calls, scan_from_frames, scan_from_pos.
  cbn [verify_init playing playback_pos frames_by_universe loader
       ShowLoader.pos Nat.add valid_prefix ticks].
  assert (wrap64 (0 + next_wait e) = next_wait e) as ->.
  { rewrite N.add_0_l. apply wrap64_small.
    eapply N.lt_trans; [done|]. by vm_compute. }
  set (es := valid_prefix rs). set (ts := ticks (next_wait e) es).
  assert (length ts = length es) as Hts by apply length_ticks.
  assert (length es ≤ length rs)%nat as Hes.
  { unfold es. clear. induction rs as [|[e|] rs IH]; simpl; lia. }
  pose proof (counted_of_le stop ts) as Hcount.
  assert (∀ n, (n ≤ S (length ts))%nat →
               N.of_nat (length (take n (e :: es))) < 2 ^ 32) as Hshort.
  { intros n Hn. rewrite length_take. simpl in *. lia. }
  rewrite clamp_index_cons, counted_of_cons.
  destruct ((0 <? stop) && (stop <=? next_wait e)) eqn:Hclip.
  - apply andb_true_iff in Hclip as [H1%N.ltb_lt H2%N.leb_le].
    split; [right; done|]. intros u. apply frame_count_raw.
    apply Hshort. lia.
  - assert ((0 <? next_wait e) = true) as -> by by apply N.ltb_lt.
    split; [by left|]. intros u.
    rewrite clamp_noop by apply frame_count_first.
    cbn [take drop]. rewrite take_0, drop_0.
    change (count_from (count_from ∅ [e]) (take (counted_of stop ts) es))
      with (count_from ∅ (take (S (counted_of stop ts)) (e :: es))).
    change (e :: take (counted_of stop ts) es)
      with (take (S (counted_of stop ts)) (e :: es)).
    apply frame_count_raw. apply Hshort. lia.
Qed.

Lemma start_zero_counts_witness :
  ∃ v, verify_scan 0 0 (ShowLoader.mk show_A 0) = Some v ∧
       (clamp_calls v = [0%nat] ∨ clamp_calls v = [] ∧ 0 < 0 ∧ 0 ≤ 100) ∧
       ∀ u, frame_count (frames_by_universe v) u =
            entries_for u (take (ShowLoader.pos (loader v)) entries_A).
Proof.
  apply (start_zero_counts 0 (mkShowEntry 1 100 [])
           [Frame (mkShowEntry 1 200 []); Frame (mkShowEntry 2 50 [])]).
  - reflexivity.
  - reflexivity.
  - vm_compute. reflexivity.
Defined.

(** C10: in a window with a start above zero and a stop above the start,
    if the first entry after which the clock exceeds [start] also reaches
    [stop], the scan ends at that entry before the start test is made:
    the clamp is never called, the playing flag stays unset, and every
    entry up to that one is counted one by one, so each counter is the raw
    number of those entries for its universe.  The show has fewer than
    2^32 of them. *)
Theorem stop_clip_precedes_clamp start stop rs k t :
  let es := valid_prefix rs in
  let ts := ticks 0 es in
  0 < start →
  start < stop →
  first_crossing start ts k →
  ts !! k = Some t →
  stop ≤ t →
  N.of_nat (S k) < 2 ^ 32 →
  ∃ v, verify_scan start stop (ShowLoader.mk rs 0) = Some v ∧
       clamp_calls v = [] ∧
       playing v = false ∧
       state v = ShowLoader.OK ∧
       ShowLoader.pos (loader v) = S k ∧
       ∀ u, frame_count (frames_by_universe v) u = entries_for u (take (S k) es).
Proof.
  intros es ts Hstart Hstop Hcross Hk Ht Hlen.
  assert (clipping stop ts = Some k) as Hclip.
  { apply clipping_Some. split; [exists t; split_and!; [done|lia|done]|].
    intros j t' Hj Hl [_ Hle]. destruct Hcross as [_ Hfirst].
    specialize (Hfirst j t' Hj Hl). lia. }
  assert (clamp_index start stop ts = None) as Hindex.
  { unfold clamp_index. apply crossing_Some in Hcross. rewrite Hcross, Hclip.
    by rewrite Nat.leb_refl. }
  eexists. split; [apply verify_scan_scan_from|].
  rewrite verify_scan_clamp_calls, scan_from_playing, scan_from_state,
    scan_from_frames, scan_from_pos.
  cbn [verify_init playing playback_pos frames_by_universe loader
       ShowLoader.pos orb Nat.add].
  fold es ts. unfold counted_of. rewrite Hindex, Hclip. split_and!; try done.
  intros u. apply frame_count_raw. rewrite length_take.
  apply lookup_lt_Some in Hk. unfold ts in Hk. rewrite length_ticks in Hk. lia.
Qed.

Lemma stop_clip_precedes_clamp_witness :
  ∃ v, verify_scan 150 200 (ShowLoader.mk show_A 0) = Some v ∧
       clamp_calls v = [] ∧
       playing v = false ∧
       state v = ShowLoader.OK ∧
       ShowLoader.pos (loader v) = 2%nat ∧
       ∀ u, frame_count (frames_by_universe v) u = entries_for u (take 2 entries_A).
Proof.
  apply (stop_clip_precedes_clamp 150 200 show_A 1 300).
  - reflexivity.
  - reflexivity.
  - split.
    + exists 300. split; reflexivity.
    + intros [|[|j]] t' Hj Hl; [|lia..].
      injection Hl as <-. vm_compute. discriminate.
  - reflexivity.
  - vm_compute. discriminate.
  - vm_compute. reflexivity.
Defined.

(** ** More on the clamp and on the report *)

(** X1: clamping twice is clamping once: after [ClampVerifyFrameCount]
    no counter exceeds 1, and a second call changes nothing. *)
Theorem ClampVerifyFrameCount_idempotent (frames : gmap N N) :
  (∀ u, frame_count (ClampVerifyFrameCount frames) u ≤ 1) ∧
  ClampVerifyFrameCount (ClampVerifyFrameCount frames) =
  ClampVerifyFrameCount frames.
Proof.
  assert (∀ u, frame_count (ClampVerifyFrameCount frames) u ≤ 1) as Hle.
  { intros u. rewrite frame_count_clamp. lia. }
  split; [done|]. by apply clamp_noop.
Qed.

#[local] Instance key_le_total : Total key_le.
Proof. intros a b. unfold key_le. lia. Qed.

#[local] Instance key_le_trans : Transitive key_le.
Proof. intros a b c. unfold key_le. lia. Qed.

(** X2: the lines of the summary are the counters of the map, one line
    per universe, in strictly ascending order of the universe number. *)
Theorem frame_lines_sorted_complete (frames : gmap N N) :
  (∀ u c, (u, c) ∈ frame_lines frames ↔ frames !! u = Some c) ∧
  length (frame_lines frames) = size frames ∧
  ∀ i j a b, (i < j)%nat →
             frame_lines frames !! i = Some a →
             frame_lines frames !! j = Some b →
             a.1 < b.1.
Proof.
  unfold frame_lines.
  pose proof (merge_sort_Permutation key_le (map_to_list frames)) as Hperm.
  split_and!.
  - intros u c. rewrite Hperm. apply elem_of_map_to_list.
  - by rewrite Hperm, length_map_to_list.
  - intros i j a b Hij Hi Hj.
    pose proof (StronglySorted_merge_sort key_le (map_to_list frames)) as Hsort.
    assert (NoDup (merge_sort key_le (map_to_list frames)).*1) as Hnodup.
    { rewrite Hperm. apply NoDup_fst_map_to_list. }
    assert (a.1 ≠ b.1) as Hne.
    { intros Heq.
      assert (i = j); [|lia].
      eapply NoDup_lookup; [exact Hnodup| |].
      - rewrite list_lookup_fmap, Hi. done.
      - rewrite list_lookup_fmap, Hj. simpl. by rewrite Heq. }
    assert (key_le a b) as Hle; [|unfold key_le in Hle; lia].
    revert i j Hij Hi Hj. clear Hnodup Hne Hperm.
    induction Hsort as [|x l Hsorted IH Hall]; intros i j Hij Hi Hj.
    { by rewrite lookup_nil in Hi. }
    destruct i as [|i], j as [|j]; try lia.
    + simpl in Hi, Hj. injection Hi as ->. rewrite Forall_forall in Hall.
      apply Hall. by eapply list_elem_of_lookup_2.
    + simpl in Hi, Hj. eapply IH; [|done..]. lia.
Qed.

(** ** The counters a pass ends with *)

Lemma clamp_index_lt_counted start stop ts k :
  clamp_index start stop ts = Some k → (k < counted_of stop ts)%nat.
Proof.
  revert k. induction ts as [|t ts IH]; intros k; [done|].
  rewrite clamp_index_cons, counted_of_cons.
  destruct ((0 <? stop) && (stop <=? t)); [done|].
  destruct (start <? t); [intros [= <-]; lia|].
  destruct (clamp_index start stop ts) as [k'|]; [|done].
  intros [= <-]. specialize (IH k' eq_refl). lia.
Qed.

Lemma take_counted_split (es : list ShowEntry) k n :
  (k < n)%nat → take (S k) es ++ drop (S k) (take n es) = take n es.
Proof.
  intros Hk. rewrite <-(take_drop (S k) (take n es)) at 2.
  f_equal. rewrite take_take. f_equal. lia.
Qed.

Lemma entries_for_app u es1 es2 :
  entries_for u (es1 ++ es2) = entries_for u es1 + entries_for u es2.
Proof.
  unfold entries_for. rewrite filter_app, length_app. lia.
Qed.

Lemma dom_frames_incr u (frames : gmap N N) :
  dom (frames_incr u frames) = {[u]} ∪ dom frames.
Proof. unfold frames_incr. apply dom_insert_L. Qed.

Lemma dom_count_from (frames : gmap N N) es :
  dom (count_from frames es) = dom frames ∪ universes_of es.
Proof.
  revert frames. induction es as [|e es IH]; intros frames.
  - unfold universes_of. simpl. by rewrite (right_id_L ∅ (∪)).
  - rewrite count_from_cons, IH, dom_frames_incr.
    unfold universes_of. simpl.
    by rewrite (comm_L (∪) {[universe e]} (dom frames)), (assoc_L (∪)).
Qed.

Lemma universes_of_app es1 es2 :
  universes_of (es1 ++ es2) = universes_of es1 ∪ universes_of es2.
Proof. unfold universes_of. by rewrite fmap_app, list_to_set_app_L. Qed.

(** X3: the map a pass ends with has a counter for exactly the universes
    of the entries it counted, whether or not the clamp was called: the
    clamp never removes a universe and no other universe gets a line. *)
Theorem verify_scan_universes start stop rs :
  ∃ v, verify_scan start stop (ShowLoader.mk rs 0) = Some v ∧
       dom (frames_by_universe v) =
       universes_of (take (ShowLoader.pos (loader v)) (valid_prefix rs)).
Proof.
  eexists. split; [apply verify_scan_scan_from|].
  rewrite scan_from_frames, scan_from_pos.
  cbn [verify_init playing playback_pos frames_by_universe loader
       ShowLoader.pos Nat.add].
  set (es := valid_prefix rs). set (ts := ticks 0 es).
  destruct (clamp_index start stop ts) as [k|] eqn:Hindex.
  - apply clamp_index_lt_counted in Hindex.
    rewrite dom_count_from. unfold ClampVerifyFrameCount.
    rewrite dom_fmap_L, dom_count_from, dom_empty_L, (left_id_L ∅ (∪)).
    by rewrite <-universes_of_app, take_counted_split.
  - by rewrite dom_count_from, dom_empty_L, (left_id_L ∅ (∪)).
Qed.

(** X4: what the verifier reports for a universe, for a show of fewer
    than 2^32 records.  If the clamp was called at entry [k], the entries
    of the universe up to [k] count as one (if there are any) and every
    later counted entry counts on its own; if the clamp was not called,
    every counted entry counts.  So a counter never exceeds the raw
    number of entries counted for its universe, and it is zero only if
    there are none. *)
Theorem verify_scan_counts start stop rs :
  N.of_nat (length rs) < 2 ^ 32 →
  let es := valid_prefix rs in
  ∃ v, verify_scan start stop (ShowLoader.mk rs 0) = Some v ∧
       let counted := take (ShowLoader.pos (loader v)) es in
       ∀ u,
         (∀ k, clamp_calls v = [k] →
               frame_count (frames_by_universe v) u =
               N.min (entries_for u (take (S k) es)) 1 +
               entries_for u (drop (S k) counted)) ∧
         (clamp_calls v = [] →
          frame_count (frames_by_universe v) u = entries_for u counted) ∧
         frame_count (frames_by_universe v) u ≤ entries_for u counted ∧
         (frame_count (frames_by_universe v) u = 0 →
          entries_for u counted = 0).
Proof.
  intros Hlen es. eexists. split; [apply verify_scan_scan_from|].
  rewrite verify_scan_clamp_calls, scan_from_frames, scan_from_pos.
  cbn [verify_init playing playback_pos frames_by_universe loader
       ShowLoader.pos Nat.add].
  fold es. set (ts := ticks 0 es). set (n := counted_of stop ts).
  assert (length es ≤ length rs)%nat as Hes.
  { unfold es. clear. induction rs as [|[e|] rs IH]; simpl; lia. }
  assert (∀ l : list ShowEntry,
            (length l ≤ length es)%nat → N.of_nat (length l) < 2 ^ 32)
    as Hshort by (intros l Hl; lia).
  intros u.
  destruct (clamp_index start stop ts) as [k|] eqn:Hindex; simpl.
  - apply clamp_index_lt_counted in Hindex. fold n in Hindex.
    pose proof (take_counted_split es k n Hindex) as Hsplit.
    pose proof (entries_for_app u (take (S k) es) (drop (S k) (take n es)))
      as Happ.
    rewrite Hsplit in Happ.
    pose proof (entries_for_le_length u (take n es)) as Hle.
    assert (N.of_nat (length (take n es)) < 2 ^ 32) as Hn.
    { apply Hshort. rewrite length_take. lia. }
    assert (frame_count
              (count_from
                 (ClampVerifyFrameCount (count_from ∅ (take (S k) es)))
                 (drop (S k) (take n es))) u =
            N.min (entries_for u (take (S k) es)) 1 +
            entries_for u (drop (S k) (take n es))) as Hcount.
    { rewrite frame_count_count_from; rewrite frame_count_clamp,
        frame_count_raw by (apply Hshort; rewrite length_take; lia).
      - apply wrap32_small. lia.
      - eapply N.le_lt_trans; [apply N.le_min_r|]. by vm_compute. }
    rewrite Hcount. split_and!.
    + by intros k' [= <-].
    + done.
    + lia.
    + lia.
  - assert (N.of_nat (length (take n es)) < 2 ^ 32) as Hn.
    { apply Hshort. rewrite length_take. lia. }
    rewrite frame_count_raw by done. split_and!; (done || lia).
Qed.

Lemma verify_scan_counts_witness :
  ∃ v, verify_scan 150 0 (ShowLoader.mk show_A 0) = Some v ∧
       let counted := take (ShowLoader.pos (loader v)) entries_A in
       ∀ u,
         (∀ k, clamp_calls v = [k] →
               frame_count (frames_by_universe v) u =
               N.min (entries_for u (take (S k) entries_A)) 1 +
               entries_for u (drop (S k) counted)) ∧
         (clamp_calls v = [] →
          frame_count (frames_by_universe v) u = entries_for u counted) ∧
         frame_count (frames_by_universe v) u ≤ entries_for u counted ∧
         (frame_count (frames_by_universe v) u = 0 →
          entries_for u counted = 0).
Proof.
  apply (verify_scan_counts 150 0 show_A). vm_compute. reflexivity.
Defined.

(** ** The report of a loaded show *)

Lemma VerifyShow_loaded store fl filename rs :
  store !! filename = Some rs →
  VerifyShow store fl filename =
  Some (EvLoad filename ::
        (verify_report fl
           (scan_from (FLAGS_start fl) (FLAGS_stop fl) rs
              (verify_init (ShowLoader.mk rs 0)))).1,
        (verify_report fl
           (scan_from (FLAGS_start fl) (FLAGS_stop fl) rs
              (verify_init (ShowLoader.mk rs 0)))).2).
Proof.
  intros Hstore. unfold VerifyShow, ShowLoader.Load.
  rewrite Hstore, verify_scan_scan_from.
  by destruct (verify_report fl _).
Qed.

Lemma verify_report_eq fl v1 v2 :
  playback_pos v1 = playback_pos v2 →
  frames_by_universe v1 = frames_by_universe v2 →
  state v1 = state v2 →
  verify_report fl v1 = verify_report fl v2.
Proof.
  intros Hpos Hframes Hstate. unfold verify_report.
  by rewrite Hpos, Hframes, Hstate.
Qed.

Lemma verify_report_warnings fl v w :
  EvWarn w ∈ (verify_report fl v).1 ↔
  (w = EndsBeforeStart (playback_pos v) ∧ playback_pos v < FLAGS_start fl) ∨
  (w = EndsBeforeStop (playback_pos v) ∧ playback_pos v < FLAGS_stop fl).
Proof.
  unfold verify_report.
  destruct (N.ltb_spec (playback_pos v) (FLAGS_start fl)),
    (N.ltb_spec (playback_pos v) (FLAGS_stop fl)), (state v); simpl;
    rewrite ?elem_of_cons, ?elem_of_nil;
    split; intros Hw; try (exfalso; lia);
    repeat match goal with
           | H : _ ∨ _ |- _ => destruct H
           | H : _ ∧ _ |- _ => destruct H
           | H : EvWarn _ = _ |- _ => inversion H; clear H; subst
           | H : False |- _ => destruct H
           end;
    try lia; try discriminate; subst; auto.
Qed.

(** Without wrap-around, the clock of a scan either stays below [stop]
    to the end of the show, or the show is at least [stop] long. *)
Lemma clipping_no_wrap stop c es :
  0 < stop → c < stop → c + show_length es < 2 ^ 64 →
  match clipping stop (ticks c es) with
  | Some _ => stop ≤ c + show_length es
  | None => c + show_length es < stop ∧ clock_from c es = c + show_length es
  end.
Proof.
  intros Hstop. revert c. induction es as [|e es IH]; intros c Hc Hsum.
  - simpl. unfold clock_from. simpl. lia.
  - cbn [ticks show_length foldr] in *. fold (show_length es) in *.
    rewrite clipping_cons.
    assert (wrap64 (c + next_wait e) = c + next_wait e) as ->
      by (apply wrap64_small; lia).
    assert ((0 <? stop) = true) as -> by by apply N.ltb_lt.
    destruct (N.leb_spec stop (c + next_wait e)); simpl; [lia|].
    specialize (IH (c + next_wait e)).
    destruct (clipping stop (ticks (c + next_wait e) es)); simpl.
    + rewrite N.add_assoc. apply IH; lia.
    + unfold clock_from. cbn [fold_left].
      fold (clock_from (wrap64 (c + next_wait e)) es).
      rewrite wrap64_small by lia. rewrite N.add_assoc. apply IH; lia.
Qed.

(** The position a scan of a well-formed show ends at, without
    wrap-around: the length of the show, cut at a non-zero [stop]. *)
Lemma scan_playback_pos_no_wrap start stop es :
  show_length es < 2 ^ 64 →
  playback_pos (scan_from start stop (Frame <$> es)
                  (verify_init (ShowLoader.mk (Frame <$> es) 0))) =
  if 0 <? stop then N.min stop (show_length es) else show_length es.
Proof.
  intros Hsum. rewrite scan_from_playback_pos, valid_prefix_frames. simpl.
  destruct (N.ltb_spec 0 stop) as [Hstop|Hstop].
  - pose proof (clipping_no_wrap stop 0 es Hstop Hstop) as Hclip.
    rewrite N.add_0_l in Hclip. specialize (Hclip Hsum).
    destruct (clipping stop (ticks 0 es)); lia.
  - assert (stop = 0) as -> by lia.
    rewrite clipping_stop_0, clock_from_0. by apply wrap64_small.
Qed.

Lemma scan_state_frames start stop es :
  state (scan_from start stop (Frame <$> es)
           (verify_init (ShowLoader.mk (Frame <$> es) 0))) ≠
  ShowLoader.INVALID_LINE.
Proof.
  rewrite scan_from_state, end_state_frames.
  by destruct (clipping stop _).
Qed.

(** X5: for a show the loader reads without a format error, whose waits
    sum to less than 2^64, and any window: the run is a success and the
    playback time it reports is the length of the show, cut at a non-zero
    [stop], minus [start], or zero where that would be negative.  A show
    longer than [stop] is not read to its end. *)
Theorem total_time_window store fl filename es :
  store !! filename = Some (Frame <$> es) →
  show_length es < 2 ^ 64 →
  ∃ events s,
    VerifyShow store fl filename = Some (events, EXIT_OK) ∧
    summaries events = [s] ∧
    Z.of_N (total_time s) =
    Z.max 0
      ((if 0 <? FLAGS_stop fl
        then Z.min (Z.of_N (FLAGS_stop fl)) (Z.of_N (show_length es))
        else Z.of_N (show_length es)) - Z.of_N (FLAGS_start fl)).
Proof.
  intros Hstore Hsum. rewrite (VerifyShow_loaded _ _ _ _ Hstore).
  set (v := scan_from _ _ _ _).
  pose proof (scan_playback_pos_no_wrap (FLAGS_start fl) (FLAGS_stop fl) es Hsum)
    as Hpos. fold v in Hpos.
  pose proof (scan_state_frames (FLAGS_start fl) (FLAGS_stop fl) es) as Hstate.
  fold v in Hstate.
  destruct (summaries_report fl v) as (s & Hs & Htime & _).
  eexists _, s. split_and!.
  - f_equal. f_equal. unfold verify_report. by destruct (state v).
  - done.
  - rewrite Htime.
    destruct (N.leb_spec (FLAGS_start fl) (playback_pos v));
      rewrite Hpos in *; destruct (0 <? FLAGS_stop fl); lia.
Qed.

Lemma total_time_window_witness :
  ∃ events s,
    VerifyShow store_A (verify_flags 150 320) "a.show" = Some (events, EXIT_OK) ∧
    summaries events = [s] ∧
    Z.of_N (total_time s) =
    Z.max 0 (Z.min 320 (Z.of_N (show_length entries_A)) - 150).
Proof.
  apply (total_time_window store_A (verify_flags 150 320) "a.show" entries_A).
  - reflexivity.
  - vm_compute. reflexivity.
Defined.

(** X6: the warnings, for a show read without a format error, whose
    waits sum to less than 2^64, and a window that [main] lets through
    (no stop, or a stop not below the start).  The verifier warns that the
    show ends before the start time exactly when the show is shorter than
    [start], and that it ends before the stop time exactly when it is
    shorter than [stop]; the length either warning names is the length of
    the show, and there is no other warning. *)
Theorem VerifyShow_warnings store fl filename es :
  store !! filename = Some (Frame <$> es) →
  show_length es < 2 ^ 64 →
  FLAGS_stop fl = 0 ∨ FLAGS_start fl ≤ FLAGS_stop fl →
  ∃ events,
    VerifyShow store fl filename = Some (EvLoad filename :: events, EXIT_OK) ∧
    ∀ w, EvWarn w ∈ events ↔
         (w = EndsBeforeStart (show_length es) ∧
          show_length es < FLAGS_start fl) ∨
         (w = EndsBeforeStop (show_length es) ∧
          show_length es < FLAGS_stop fl).
Proof.
  intros Hstore Hsum Hwin. rewrite (VerifyShow_loaded _ _ _ _ Hstore).
  set (v := scan_from _ _ _ _).
  pose proof (scan_playback_pos_no_wrap (FLAGS_start fl) (FLAGS_stop fl) es Hsum)
    as Hpos. fold v in Hpos.
  pose proof (scan_state_frames (FLAGS_start fl) (FLAGS_stop fl) es) as Hstate.
  fold v in Hstate.
  eexists. split.
  - f_equal. f_equal. unfold verify_report. by destruct (state v).
  - intros w. rewrite verify_report_warnings, Hpos.
    destruct (N.ltb_spec 0 (FLAGS_stop fl)) as [Hstop|Hstop].
    + destruct (N.min_spec (FLAGS_stop fl) (show_length es))
        as [[Hlt ->]|[Hle ->]].
      * split; intros [[-> ?]|[-> ?]]; lia.
      * tauto.
    + tauto.
Qed.

Lemma VerifyShow_warnings_witness :
  ∃ events,
    VerifyShow store_A (verify_flags 400 500) "a.show" =
    Some (EvLoad "a.show" :: events, EXIT_OK) ∧
    ∀ w, EvWarn w ∈ events ↔
         (w = EndsBeforeStart (show_length entries_A) ∧
          show_length entries_A < 400) ∨
         (w = EndsBeforeStop (show_length entries_A) ∧
          show_length entries_A < 500).
Proof.
  apply (VerifyShow_warnings store_A (verify_flags 400 500) "a.show" entries_A).
  - reflexivity.
  - vm_compute. reflexivity.
  - right. vm_compute. discriminate.
Defined.

Lemma ticks_le_sum c es j t :
  c + show_length es < 2 ^ 64 →
  ticks c es !! j = Some t → t ≤ c + show_length es.
Proof.
  revert c j. induction es as [|e es IH]; intros c j Hsum Hj; [done|].
  cbn [ticks show_length foldr] in *. fold (show_length es) in *.
  rewrite wrap64_small in Hj by lia.
  destruct j as [|j]; simpl in Hj.
  - injection Hj as <-. lia.
  - apply IH in Hj; lia.
Qed.

(** X7: a show that is not longer than [start] (read without a format
    error, waits summing to less than 2^64, no stop) is all before the
    start point, and the verifier does not coalesce it: the clamp is never
    called, the playing flag stays unset, and the pass ends at the end of
    the show with the position at the show's length. *)
Theorem show_before_start_not_clamped start es :
  show_length es < 2 ^ 64 →
  show_length es ≤ start →
  ∃ v, verify_scan start 0 (ShowLoader.mk (Frame <$> es) 0) = Some v ∧
       clamp_calls v = [] ∧
       playing v = false ∧
       state v = ShowLoader.END_OF_FILE ∧
       ShowLoader.pos (loader v) = length es ∧
       playback_pos v = show_length es ∧
       frames_by_universe v = count_from ∅ es.
Proof.
  intros Hsum Hstart. eexists. split; [apply verify_scan_scan_from|].
  assert (clamp_index start 0 (ticks 0 es) = None) as Hindex.
  { unfold clamp_index.
    destruct (crossing start (ticks 0 es)) as [k|] eqn:Hcross; [|done].
    apply crossing_Some in Hcross as [(t & Hk & Ht) _].
    apply ticks_le_sum in Hk; lia. }
  rewrite verify_scan_clamp_calls, scan_from_playing, scan_from_state,
    scan_from_pos, scan_from_frames, scan_playback_pos_no_wrap by done.
  rewrite valid_prefix_frames, end_state_frames.
  cbn [verify_init playing playback_pos frames_by_universe loader
       ShowLoader.pos orb Nat.add].
  unfold counted_of. rewrite Hindex, clipping_stop_0, length_ticks.
  by rewrite firstn_all.
Qed.

Lemma show_before_start_not_clamped_witness :
  ∃ v, verify_scan 350 0 (ShowLoader.mk (Frame <$> entries_A) 0) = Some v ∧
       clamp_calls v = [] ∧
       playing v = false ∧
       state v = ShowLoader.END_OF_FILE ∧
       ShowLoader.pos (loader v) = length entries_A ∧
       playback_pos v = show_length entries_A ∧
       frames_by_universe v = count_from ∅ entries_A.
Proof.
  apply (show_before_start_not_clamped 350 entries_A).
  - vm_compute. reflexivity.
  - vm_compute. discriminate.
Defined.

(** ** What the verifier does not look at *)

Lemma valid_prefix_strip rs :
  valid_prefix (strip_payload <$> rs) = strip_entry <$> valid_prefix rs.
Proof. induction rs as [|[e|] rs IH]; simpl; [done| |done]. by f_equal. Qed.

Lemma end_state_strip rs : end_state (strip_payload <$> rs) = end_state rs.
Proof. induction rs as [|[e|] rs IH]; simpl; done. Qed.

Lemma ticks_strip c es : ticks c (strip_entry <$> es) = ticks c es.
Proof.
  revert c. induction es as [|e es IH]; intros c; simpl; [done|].
  by rewrite IH.
Qed.

Lemma clock_from_strip c es : clock_from c (strip_entry <$> es) = clock_from c es.
Proof.
  revert c. induction es as [|e es IH]; intros c; [done|].
  unfold clock_from. simpl. apply IH.
Qed.

Lemma count_from_strip (frames : gmap N N) es :
  count_from frames (strip_entry <$> es) = count_from frames es.
Proof.
  revert frames. induction es as [|e es IH]; intros frames; [done|].
  unfold count_from. simpl. apply IH.
Qed.

(** X8: the verifier never looks at the frame data.  Its whole result,
    events and status, is the same for a show and for the show with every
    payload removed; two shows with the same universes, waits and
    malformed records verify alike. *)
Theorem VerifyShow_ignores_payload store fl filename rs :
  VerifyShow (<[filename := strip_payload <$> rs]> store) fl filename =
  VerifyShow (<[filename := rs]> store) fl filename.
Proof.
  rewrite (VerifyShow_loaded _ fl filename (strip_payload <$> rs))
    by apply lookup_insert_eq.
  rewrite (VerifyShow_loaded _ fl filename rs) by apply lookup_insert_eq.
  set (v1 := scan_from _ _ (strip_payload <$> rs) _).
  set (v2 := scan_from _ _ rs _).
  assert (verify_report fl v1 = verify_report fl v2) as ->; [|done].
  apply verify_report_eq; unfold v1, v2.
  - rewrite !scan_from_playback_pos, valid_prefix_strip. simpl.
    by rewrite ticks_strip, clock_from_strip.
  - rewrite !scan_from_frames. simpl.
    rewrite valid_prefix_strip, ticks_strip.
    destruct (clamp_index _ _ _);
      by rewrite <-!fmap_take, <-?fmap_drop, !count_from_strip.
  - rewrite !scan_from_state, valid_prefix_strip. simpl.
    by rewrite ticks_strip, end_state_strip.
Qed.

Lemma scan_from_clipped start stop pre rest v :
  is_Some (clipping stop (ticks (playback_pos v) (valid_prefix pre))) →
  scan_from start stop (pre ++ rest) v = scan_from start stop pre v.
Proof.
  revert v. induction pre as [|[e|] pre IH]; intros v [j Hj];
    [done| |done].
  cbn [valid_prefix ticks] in Hj. rewrite clipping_cons in Hj.
  cbn [app scan_from].
  destruct ((0 <? stop) && (stop <=? wrap64 (playback_pos v + next_wait e)));
    [done|].
  destruct (clipping stop _) as [j'|] eqn:Hclip; [|done].
  destruct (negb (playing v) && _); apply IH; simpl; rewrite Hclip; eauto.
Qed.

(** X9: the scan ends at the entry that reaches a non-zero [stop], and
    nothing after that entry is read: whatever follows it in the show,
    further entries or malformed records, the verifier's events are the
    same and the status is [EXIT_OK]. *)
Theorem VerifyShow_ignores_after_stop store fl filename pre rest1 rest2 :
  is_Some (clipping (FLAGS_stop fl) (ticks 0 (valid_prefix pre))) →
  VerifyShow (<[filename := pre ++ rest1]> store) fl filename =
  VerifyShow (<[filename := pre ++ rest2]> store) fl filename ∧
  ∃ events,
    VerifyShow (<[filename := pre ++ rest1]> store) fl filename =
    Some (events, EXIT_OK).
Proof.
  intros Hclip.
  rewrite (VerifyShow_loaded _ fl filename (pre ++ rest1))
    by apply lookup_insert_eq.
  rewrite (VerifyShow_loaded _ fl filename (pre ++ rest2))
    by apply lookup_insert_eq.
  rewrite !scan_from_clipped by done.
  set (v1 := scan_from _ _ pre (verify_init (ShowLoader.mk (pre ++ rest1) 0))).
  set (v2 := scan_from _ _ pre (verify_init (ShowLoader.mk (pre ++ rest2) 0))).
  assert (state v1 = ShowLoader.OK) as Hstate.
  { unfold v1. rewrite scan_from_state. simpl. by destruct Hclip as [j ->]. }
  assert (verify_report fl v1 = verify_report fl v2) as Heq.
  { apply verify_report_eq; unfold v1, v2.
    - by rewrite !scan_from_playback_pos.
    - by rewrite !scan_from_frames.
    - by rewrite !scan_from_state. }
  split; [by rewrite Heq|].
  eexists. f_equal. f_equal. unfold verify_report. by rewrite Hstate.
Qed.

Lemma VerifyShow_ignores_after_stop_witness :
  VerifyShow (<["a.show" := take 2 show_A ++ [Garbage]]> ∅)
    (verify_flags 0 120) "a.show" =
  VerifyShow (<["a.show" := take 2 show_A ++ drop 2 show_A]> ∅)
    (verify_flags 0 120) "a.show" ∧
  ∃ events,
    VerifyShow (<["a.show" := take 2 show_A ++ [Garbage]]> ∅)
      (verify_flags 0 120) "a.show" = Some (events, EXIT_OK).
Proof.
  apply (VerifyShow_ignores_after_stop ∅ (verify_flags 0 120) "a.show"
           (take 2 show_A) [Garbage] (drop 2 show_A)).
  vm_compute. eauto.
Defined.

(** ** The total of the summary *)

Lemma lines_total_perm l1 l2 : l1 ≡ₚ l2 → lines_total l1 = lines_total l2.
Proof.
  induction 1 as [|x l1 l2 _ IH|x y l|l1 l2 l3 _ IH1 _ IH2];
    unfold lines_total in *; simpl; [done|by rewrite IH|lia|congruence].
Qed.

Lemma sum_frames_from a lines :
  fold_left (λ total line, wrap32 (total + line.2)) lines (wrap32 a) =
  wrap32 (a + lines_total lines).
Proof.
  revert a. induction lines as [|line lines IH]; intros a.
  - unfold lines_total. simpl. by rewrite N.add_0_r.
  - cbn [fold_left]. rewrite IH. unfold lines_total. cbn [foldr].
    fold (lines_total lines). unfold wrap32.
    rewrite <-N.add_assoc, N.Div0.add_mod_idemp_l. done.
Qed.

Lemma sum_frames_total (frames : gmap N N) :
  sum_frames (frame_lines frames) = wrap32 (map_total frames).
Proof.
  unfold sum_frames. change 0 with (wrap32 0) at 1.
  rewrite sum_frames_from, N.add_0_l. f_equal.
  apply lines_total_perm, merge_sort_Permutation.
Qed.

Lemma map_total_empty : map_total ∅ = 0.
Proof. unfold map_total. by rewrite map_to_list_empty. Qed.

Lemma map_total_insert (frames : gmap N N) u c :
  map_total (<[u := c]> frames) + frame_count frames u =
  c + map_total frames.
Proof.
  unfold map_total, frame_count.
  destruct (frames !! u) as [c0|] eqn:Hu; simpl.
  - rewrite <-(lines_total_perm _ _ (map_to_list_delete frames u c0 Hu)).
    rewrite <-insert_delete_eq.
    rewrite (lines_total_perm _ _
               (map_to_list_insert (delete u frames) u c (lookup_delete_eq _ _))).
    unfold lines_total. simpl. lia.
  - rewrite (lines_total_perm _ _ (map_to_list_insert frames u c Hu)).
    unfold lines_total. simpl. lia.
Qed.

Lemma frame_count_le_total (frames : gmap N N) u :
  frame_count frames u ≤ map_total frames.
Proof.
  unfold map_total, frame_count.
  destruct (frames !! u) as [c0|] eqn:Hu; simpl; [|lia].
  rewrite <-(lines_total_perm _ _ (map_to_list_delete frames u c0 Hu)).
  unfold lines_total. simpl. lia.
Qed.

Lemma map_total_incr (frames : gmap N N) u :
  map_total frames + 1 < 2 ^ 32 →
  map_total (frames_incr u frames) = map_total frames + 1.
Proof.
  intros Hlt. pose proof (frame_count_le_total frames u) as Hle.
  pose proof (map_total_insert frames u
                (wrap32 (default 0 (frames !! u) + 1))) as Hins.
  fold (frame_count frames u) in Hins.
  rewrite wrap32_small in Hins by lia.
  unfold frames_incr. fold (frame_count frames u).
  rewrite wrap32_small by lia. lia.
Qed.

Lemma map_total_count_from (frames : gmap N N) es :
  map_total frames + N.of_nat (length es) < 2 ^ 32 →
  map_total (count_from frames es) = map_total frames + N.of_nat (length es).
Proof.
  revert frames. induction es as [|e es IH]; intros frames Hlt.
  - simpl. lia.
  - rewrite count_from_cons. simpl length in *.
    rewrite IH; rewrite map_total_incr; lia.
Qed.

Lemma map_total_clamp (frames : gmap N N) :
  (∀ u c, frames !! u = Some c → 1 ≤ c) →
  map_total (ClampVerifyFrameCount frames) = N.of_nat (size frames).
Proof.
  intros Hpos. unfold map_total, ClampVerifyFrameCount.
  rewrite map_to_list_fmap, <-length_map_to_list.
  assert (∀ line, line ∈ map_to_list frames → 1 ≤ line.2) as Hall.
  { intros [u c] Hin. apply elem_of_map_to_list in Hin. by eapply Hpos. }
  induction (map_to_list frames) as [|[u c] l IH].
  - done.
  - unfold lines_total in *. cbn [fmap list_fmap foldr length prod_map snd].
    rewrite IH.
    + assert (1 ≤ c) as Hc by (apply (Hall (u, c)); left).
      unfold clamp_count. destruct (N.ltb_spec 1 c); lia.
    + intros line Hin. apply Hall. by right.
Qed.

Lemma entries_for_pos u es : u ∈ universes_of es → 1 ≤ entries_for u es.
Proof.
  unfold universes_of. rewrite elem_of_list_to_set, list_elem_of_fmap.
  intros (e & -> & Hin). induction es as [|e' es IH].
  - by apply elem_of_nil in Hin.
  - rewrite entries_for_cons. apply elem_of_cons in Hin as [<-|Hin].
    + rewrite decide_True by done. lia.
    + specialize (IH Hin). lia.
Qed.

Lemma count_from_pos es u c :
  N.of_nat (length es) < 2 ^ 32 →
  count_from ∅ es !! u = Some c → 1 ≤ c.
Proof.
  intros Hlen Hu.
  assert (frame_count (count_from ∅ es) u = c) as <-
    by (unfold frame_count; by rewrite Hu).
  rewrite frame_count_raw by done. apply entries_for_pos.
  assert (u ∈ dom (count_from ∅ es)) as Hdom by (apply elem_of_dom; eauto).
  by rewrite dom_count_from, dom_empty_L, (left_id_L ∅ (∪)) in Hdom.
Qed.

Lemma summary_total fl v :
  ∃ s, summaries (verify_report fl v).1 = [s] ∧
       total_frames s = sum_frames (frame_lines (frames_by_universe v)).
Proof.
  unfold verify_report.
  destruct (state v), (playback_pos v <? FLAGS_start fl),
    (playback_pos v <? FLAGS_stop fl); simpl; eauto.
Qed.

(** X10: the total the summary prints, for a show of fewer than 2^32
    records.  If the clamp was not called it is the number of entries
    counted.  If it was called at entry [k], it is the number of distinct
    universes among the entries up to [k] plus the number of entries
    counted after [k].  It never exceeds the number of entries counted. *)
Theorem VerifyShow_total_frames store fl filename rs :
  store !! filename = Some rs →
  N.of_nat (length rs) < 2 ^ 32 →
  let es := valid_prefix rs in
  ∃ v events status s,
    verify_scan (FLAGS_start fl) (FLAGS_stop fl) (ShowLoader.mk rs 0) = Some v ∧
    VerifyShow store fl filename = Some (events, status) ∧
    summaries events = [s] ∧
    (clamp_calls v = [] →
     total_frames s = N.of_nat (ShowLoader.pos (loader v))) ∧
    (∀ k, clamp_calls v = [k] →
          total_frames s =
          N.of_nat (size (universes_of (take (S k) es))) +
          N.of_nat (ShowLoader.pos (loader v) - S k)) ∧
    total_frames s ≤ N.of_nat (ShowLoader.pos (loader v)).
Proof.
  intros Hstore Hlen es. rewrite (VerifyShow_loaded _ _ _ _ Hstore).
  set (v := scan_from _ _ _ _).
  destruct (summary_total fl v) as (s & Hs & Htotal).
  exists v, (EvLoad filename :: (verify_report fl v).1),
    (verify_report fl v).2, s.
  split; [apply verify_scan_scan_from|]. split; [done|]. split; [done|].
  rewrite Htotal, sum_frames_total. unfold v.
  rewrite verify_scan_clamp_calls, scan_from_frames, scan_from_pos.
  cbn [verify_init playing playback_pos frames_by_universe loader
       ShowLoader.pos Nat.add].
  fold es. set (ts := ticks 0 es).
  assert (length es ≤ length rs)%nat as Hes.
  { unfold es. clear. induction rs as [|[e|] rs IH]; simpl; lia. }
  pose proof (counted_of_le (FLAGS_stop fl) ts) as Hn.
  unfold ts in Hn at 2. rewrite length_ticks in Hn.
  destruct (clamp_index (FLAGS_start fl) (FLAGS_stop fl) ts) as [k|] eqn:Hindex;
    simpl.
  - apply clamp_index_lt_counted in Hindex.
    set (pre := take (S k) es).
    set (post := drop (S k) (take (counted_of (FLAGS_stop fl) ts) es)).
    assert (length pre = S k) as Hpre by (unfold pre; rewrite length_take; lia).
    assert (length post = (counted_of (FLAGS_stop fl) ts - S k)%nat) as Hpost.
    { unfold post. rewrite length_drop, length_take. lia. }
    assert (map_total (ClampVerifyFrameCount (count_from ∅ pre)) =
            N.of_nat (size (universes_of pre))) as Hclamp.
    { rewrite map_total_clamp.
      - rewrite <-size_dom, dom_count_from, dom_empty_L.
        by rewrite (left_id_L ∅ (∪)).
      - intros u c. apply count_from_pos. lia. }
    assert (N.of_nat (size (universes_of pre)) ≤ N.of_nat (S k)) as Hsize.
    { rewrite <-Hclamp. unfold map_total, ClampVerifyFrameCount.
      rewrite map_to_list_fmap.
      assert (map_total (count_from ∅ pre) = N.of_nat (S k)) as <-.
      { rewrite map_total_count_from; rewrite map_total_empty; lia. }
      unfold map_total. clear.
      induction (map_to_list (count_from ∅ pre)) as [|[u c] l IH]; [done|].
      unfold lines_total in *. cbn [fmap list_fmap foldr prod_map snd].
      unfold clamp_count at 1. destruct (N.ltb_spec 1 c); simpl; lia. }
    rewrite map_total_count_from by (rewrite Hclamp, Hpost; lia).
    rewrite Hclamp, Hpost, wrap32_small by lia.
    split_and!; [done| |lia]. by intros k' [= <-].
  - rewrite map_total_count_from;
      rewrite map_total_empty, length_take, ?wrap32_small; try lia.
    split_and!; [intros _; f_equal; lia|done|lia].
Qed.

Lemma VerifyShow_total_frames_witness :
  ∃ v events status s,
    verify_scan 150 0 (ShowLoader.mk show_A 0) = Some v ∧
    VerifyShow store_A (verify_flags 150 0) "a.show" = Some (events, status) ∧
    summaries events = [s] ∧
    (clamp_calls v = [] →
     total_frames s = N.of_nat (ShowLoader.pos (loader v))) ∧
    (∀ k, clamp_calls v = [k] →
          total_frames s =
          N.of_nat (size (universes_of (take (S k) entries_A))) +
          N.of_nat (ShowLoader.pos (loader v) - S k)) ∧
    total_frames s ≤ N.of_nat (ShowLoader.pos (loader v)).
Proof.
  apply (VerifyShow_total_frames store_A (verify_flags 150 0) "a.show" show_A).
  - reflexivity.
  - vm_compute. reflexivity.
Defined.

(** ** The calls of [main] *)

Lemma verify_report_no_calls fl v : calls_of (verify_report fl v).1 = [].
Proof.
  unfold verify_report.
  by destruct (state v), (playback_pos v <? FLAGS_start fl),
    (playback_pos v <? FLAGS_stop fl).
Qed.

Lemma VerifyShow_no_calls store fl filename :
  ∃ events status,
    VerifyShow store fl filename = Some (EvLoad filename :: events, status) ∧
    calls_of events = [] ∧
    (status = EXIT_NOINPUT ↔ store !! filename = None) ∧
    (status = EXIT_OK ∨ status = EXIT_NOINPUT ∨ status = EXIT_DATAERR).
Proof.
  destruct (store !! filename) as [rs|] eqn:Hstore.
  - rewrite (VerifyShow_loaded _ _ _ _ Hstore).
    eexists _, _. split; [done|]. split; [apply verify_report_no_calls|].
    unfold verify_report.
    destruct (state _); simpl;
      (split; [split; intros H; vm_compute in H; discriminate | auto]).
  - unfold VerifyShow, ShowLoader.Load. rewrite Hstore.
    eexists [], _. split; [done|]. split; [done|]. split; [done|auto].
Qed.


(** X12: with a valid window and [--verify] the only primary flag,
    [main] calls the verifier on the named file and returns its status:
    [EXIT_NOINPUT] exactly when the show cannot be loaded, and otherwise
    [EXIT_OK] or [EXIT_DATAERR]; the usage exit code is not among them. *)
Theorem main_verify_status player_Init player_Playback recorder_run store fl :
  window_invalid fl = false →
  FLAGS_playback fl = EmptyString →
  FLAGS_record fl = EmptyString →
  FLAGS_verify fl ≠ EmptyString →
  ∃ events status,
    main player_Init player_Playback recorder_run store fl =
    Some (EvCall OpVerify :: EvLoad (FLAGS_verify fl) :: events, status) ∧
    VerifyShow store fl (FLAGS_verify fl) =
    Some (EvLoad (FLAGS_verify fl) :: events, status) ∧
    (status = EXIT_NOINPUT ↔ store !! FLAGS_verify fl = None) ∧
    (status = EXIT_OK ∨ status = EXIT_NOINPUT ∨ status = EXIT_DATAERR) ∧
    status ≠ EXIT_USAGE.
Proof.
  intros Hwin Hplay Hrec Hver. unfold main. unfold window_invalid in Hwin.
  rewrite Hwin, Hplay, Hrec. simpl.
  apply String.eqb_neq in Hver. rewrite Hver. simpl.
  destruct (VerifyShow_no_calls store fl (FLAGS_verify fl))
    as (events & status & Hrun & Hcalls & Hnoinput & Hstatus).
  rewrite Hrun. exists events, status. split_and!; try done.
  destruct Hstatus as [-> | [-> | ->]]; done.
Qed.

Lemma main_verify_status_witness :
  ∃ events status,
    main player_ok playback_ok recorder_ok store_A (verify_flags 0 0) =
    Some (EvCall OpVerify :: EvLoad "a.show" :: events, status) ∧
    VerifyShow store_A (verify_flags 0 0) "a.show" =
    Some (EvLoad "a.show" :: events, status) ∧
    (status = EXIT_NOINPUT ↔ store_A !! "a.show" = None) ∧
    (status = EXIT_OK ∨ status = EXIT_NOINPUT ∨ status = EXIT_DATAERR) ∧
    status ≠ EXIT_USAGE.
Proof.
  apply (main_verify_status player_ok playback_ok recorder_ok store_A
           (verify_flags 0 0)).
  - reflexivity.
  - reflexivity.
  - reflexivity.
  - discriminate.
Defined.

(** ** [RecordShow] and the universe list *)

Section RecordFacts.

Variable StringSplit : string → string → list string.
Variable StringToInt : string → option N.
Variable recorder_Init : string → list N → Z.
Variable signal_thread_Start : bool.
Variable recorder_FrameCount : N.

Lemma parse_universes_inr universe_strs universes result :
  parse_universes StringToInt universe_strs universes = inr result ↔
  ∃ parsed, result = universes ++ parsed ∧
            Forall2 (λ token u, StringToInt token = Some u)
              universe_strs parsed.
Proof.
  revert universes. induction universe_strs as [|token rest IH];
    intros universes; simpl.
  - split.
    + intros [= <-]. exists []. by rewrite app_nil_r.
    + intros (parsed & -> & Hall). inversion Hall. by rewrite app_nil_r.
  - destruct (StringToInt token) as [u|] eqn:Htoken.
    + rewrite IH. split.
      * intros (parsed & -> & Hall). exists (u :: parsed).
        rewrite <-app_assoc. split; [done|]. by constructor.
      * intros (parsed & -> & Hall).
        inversion Hall as [|? u' ? parsed' Hu Hrest]; subst.
        assert (u' = u) as -> by congruence.
        exists parsed'. by rewrite <-app_assoc.
    + split; [done|]. intros (parsed & _ & Hall).
      inversion Hall; congruence.
Qed.

Lemma parse_universes_inl universe_strs universes token :
  parse_universes StringToInt universe_strs universes = inl token ↔
  ∃ pre post, universe_strs = pre ++ token :: post ∧
              Forall (λ s, is_Some (StringToInt s)) pre ∧
              StringToInt token = None.
Proof.
  revert universes. induction universe_strs as [|s rest IH];
    intros universes; simpl.
  - split; [done|]. intros (pre & post & Heq & _). by destruct pre.
  - destruct (StringToInt s) as [u|] eqn:Hs.
    + rewrite IH. split.
      * intros (pre & post & -> & Hpre & Htoken).
        exists (s :: pre), post. split_and!; [done| |done].
        constructor; [by rewrite Hs|done].
      * intros (pre & post & Heq & Hpre & Htoken).
        destruct pre as [|s' pre]; simpl in Heq.
        { injection Heq as -> ->. congruence. }
        injection Heq as -> ->. inversion Hpre; subst. eauto.
    + split.
      * intros [= <-]. exists [], rest. split_and!; [done|constructor|done].
      * intros (pre & post & Heq & Hpre & Htoken).
        destruct pre as [|s' pre]; simpl in Heq.
        { by injection Heq as -> ->. }
        injection Heq as -> ->. inversion Hpre as [|? ? [u Hu] ?]; subst.
        congruence.
Qed.

(** X13: when the universe list is not empty and every token of it
    converts, [RecordShow] initialises the recorder, as its first action,
    on the file of [--record] with the converted tokens, one universe per
    token, in the order given and with repetitions kept. *)
Theorem RecordShow_universes fl :
  FLAGS_universes fl ≠ EmptyString →
  Forall (λ token, is_Some (StringToInt token))
    (StringSplit (FLAGS_universes fl) ",") →
  ∃ universes rest,
    Forall2 (λ token u, StringToInt token = Some u)
      (StringSplit (FLAGS_universes fl) ",") universes ∧
    (RecordShow_calls StringSplit StringToInt recorder_Init
       signal_thread_Start recorder_FrameCount fl).1 =
    RecInit (FLAGS_record fl) universes :: rest.
Proof.
  intros Hne Hall. unfold RecordShow_calls.
  apply String.eqb_neq in Hne. rewrite Hne.
  destruct (parse_universes StringToInt _ []) as [token|universes] eqn:Hparse.
  - apply parse_universes_inl in Hparse
      as (pre & post & Heq & _ & Htoken).
    rewrite Heq, Forall_app, Forall_cons in Hall.
    destruct Hall as (_ & [u Hu] & _). congruence.
  - apply parse_universes_inr in Hparse as (parsed & -> & Hparsed).
    exists parsed. cbn [app].
    destruct (negb (recorder_Init (FLAGS_record fl) parsed =? 0)%Z);
      cbn [fst app]; eexists; (split; [exact Hparsed | reflexivity]).
Qed.

(** X14: when a token of the universe list does not convert,
    [RecordShow] ends with the usage exit code at the first such token,
    which is the one its message names, and the recorder is never
    initialised, whatever follows that token. *)
Theorem RecordShow_bad_universe fl pre token post :
  FLAGS_universes fl ≠ EmptyString →
  StringSplit (FLAGS_universes fl) "," = pre ++ token :: post →
  Forall (λ s, is_Some (StringToInt s)) pre →
  StringToInt token = None →
  RecordShow_calls StringSplit StringToInt recorder_Init
    signal_thread_Start recorder_FrameCount fl =
  ([RecFatalBadUniverse token], EXIT_USAGE).
Proof.
  intros Hne Hsplit Hpre Htoken. unfold RecordShow_calls.
  apply String.eqb_neq in Hne. rewrite Hne.
  assert (parse_universes StringToInt
            (StringSplit (FLAGS_universes fl) ",") [] = inl token) as ->;
    [|done].
  apply parse_universes_inl. eauto.
Qed.

(** X15: [RecordShow] returns [EXIT_OK] exactly when it has called
    [Record], and it calls [Record] only after an [Init] that returned
    zero, once, and reports the frame count afterwards; it calls [Stop]
    itself only when the signal thread did not start, and then before
    [Record].  A non-zero status of [Init] is returned as it is, with
    nothing recorded. *)
Theorem RecordShow_protocol fl :
  let run := RecordShow_calls StringSplit StringToInt recorder_Init
               signal_thread_Start recorder_FrameCount fl in
  (run.2 = EXIT_OK ↔ RecRecord ∈ run.1) ∧
  (RecRecord ∈ run.1 →
   ∃ universes,
     recorder_Init (FLAGS_record fl) universes = 0%Z ∧
     run.1 =
     [RecInit (FLAGS_record fl) universes; RecStdoutRecording;
      RecInstallSignalHandler SIGINT; RecInstallSignalHandler SIGTERM;
      RecSignalThreadStart] ++
     (if signal_thread_Start then [] else [RecStop]) ++
     [RecRecord; RecStdoutSaved recorder_FrameCount]) ∧
  (∀ universes,
     RecInit (FLAGS_record fl) universes ∈ run.1 →
     recorder_Init (FLAGS_record fl) universes ≠ 0%Z →
     run = ([RecInit (FLAGS_record fl) universes],
            recorder_Init (FLAGS_record fl) universes)).
Proof.
  intros run. unfold run, RecordShow_calls.
  destruct (String.eqb (FLAGS_universes fl) EmptyString).
  { simpl. split_and!.
    - split; [done|]. by intros [?|?%elem_of_nil]%elem_of_cons.
    - by intros [?|?%elem_of_nil]%elem_of_cons.
    - by intros ? [?|?%elem_of_nil]%elem_of_cons. }
  destruct (parse_universes StringToInt _ []) as [token|universes].
  { simpl. split_and!.
    - split; [done|]. by intros [?|?%elem_of_nil]%elem_of_cons.
    - by intros [?|?%elem_of_nil]%elem_of_cons.
    - by intros ? [?|?%elem_of_nil]%elem_of_cons. }
  destruct (Z.eqb_spec (recorder_Init (FLAGS_record fl) universes) 0)
    as [Hinit|Hinit]; cbn [negb fst snd].
  - split_and!.
    + split; [|done]. intros _.
      destruct signal_thread_Start; simpl; repeat constructor.
    + intros _. exists universes. done.
    + intros universes' Hin Hne. exfalso. apply Hne.
      destruct signal_thread_Start; simpl in Hin;
        apply elem_of_cons in Hin as [[= <-]|Hin]; try done;
        repeat (apply elem_of_cons in Hin as [?|Hin]; try done);
        by apply elem_of_nil in Hin.
  - split_and!.
    + split; [done|]. by intros [?|?%elem_of_nil]%elem_of_cons.
    + by intros [?|?%elem_of_nil]%elem_of_cons.
    + intros universes' [[= <-]|?%elem_of_nil]%elem_of_cons; done.
Qed.

(** [RecordShow_calls] refines [RecordShow]: with the recorder of
    [RecordShow] instantiated by the calls written out, the two return the
    same status. *)
Lemma RecordShow_calls_status fl :
  (RecordShow
     (recorder_run_calls StringSplit StringToInt recorder_Init
        signal_thread_Start recorder_FrameCount) fl).2 =
  (RecordShow_calls StringSplit StringToInt recorder_Init
     signal_thread_Start recorder_FrameCount fl).2.
Proof.
  unfold RecordShow, recorder_run_calls, RecordShow_calls.
  cbn [FLAGS_universes FLAGS_record].
  by destruct (String.eqb (FLAGS_universes fl) EmptyString).
Qed.

End RecordFacts.

Lemma RecordShow_universes_witness :
  ∃ universes rest,
    Forall2 (λ token u, example_StringToInt token = Some u)
      (example_StringSplit "1,2" ",") universes ∧
    (RecordShow_calls example_StringSplit example_StringToInt
       (λ _ _, 0%Z) true 7 (record_flags "1,2")).1 =
    RecInit "b.show" universes :: rest.
Proof.
  apply (RecordShow_universes example_StringSplit example_StringToInt
           (λ _ _, 0%Z) true 7 (record_flags "1,2")).
  - discriminate.
  - repeat constructor; vm_compute; eauto.
Defined.

Lemma RecordShow_bad_universe_witness :
  RecordShow_calls example_StringSplit example_StringToInt
    (λ _ _, 0%Z) true 7 (record_flags "1,x,3") =
  ([RecFatalBadUniverse "x"], EXIT_USAGE).
Proof.
  apply (RecordShow_bad_universe example_StringSplit example_StringToInt
           (λ _ _, 0%Z) true 7 (record_flags "1,x,3") ["1"%string] "x"
           ["3"%string]).
  - discriminate.
  - reflexivity.
  - repeat constructor. vm_compute. eauto.
  - reflexivity.
Defined.

(** ** Wrap-around *)

(** X16: the counters are [unsigned int] and the position is a
    [uint64_t], and both wrap.  For any show, however long, scanned
    without a stop: the position the scan ends at is the sum of the waits
    of the entries read, modulo 2^64, and, if the clamp was not called,
    the counter of a universe is the number of its entries, modulo
    2^32. *)
Theorem verify_scan_wraps start rs :
  let es := valid_prefix rs in
  ∃ v, verify_scan start 0 (ShowLoader.mk rs 0) = Some v ∧
       ShowLoader.pos (loader v) = length es ∧
       playback_pos v = wrap64 (show_length es) ∧
       (clamp_calls v = [] →
        ∀ u, frame_count (frames_by_universe v) u =
             wrap32 (entries_for u es)).
Proof.
  intros es. eexists. split; [apply verify_scan_scan_from|].
  rewrite verify_scan_clamp_calls, scan_from_pos, scan_from_playback_pos,
    scan_from_frames.
  cbn [verify_init playing playback_pos frames_by_universe loader
       ShowLoader.pos Nat.add].
  fold es. unfold counted_of.
  rewrite clipping_stop_0, length_ticks, clock_from_0, firstn_all.
  split_and!; [done..|].
  destruct (clamp_index start 0 (ticks 0 es)); [done|]. intros _ u.
  rewrite frame_count_count_from, frame_count_empty by
    (rewrite frame_count_empty; by vm_compute).
  by rewrite N.add_0_l.
Qed.
